(** * Dmarc_parser: a shallow embedding of [Collect_n_parse.pyw]

    The script walks a directory for DMARC aggregate-report archives,
    extracts them, parses every XML report into a nested dictionary,
    flattens the reports into rows, writes them as CSV, charts the top
    source addresses and finally deletes the extracted XML files.

    The embedding follows the script function by function.  Python
    exceptions are an explicit error monad; [None] is [option]; the nested
    dictionaries the parser builds have a fixed shape and are records; the
    flat row handed to pandas is an association list, because pandas takes
    the column order from the insertion order of the keys. *)

From Stdlib Require Import String Ascii List ZArith Lia Bool Arith PeanoNat.
From Stdlib Require Import Sorted Permutation OrdersEx RelationClasses.
Import ListNotations.
Local Open Scope string_scope.
Local Open Scope list_scope.

Set Warnings "-register-all".

(** ** Exceptions *)

Inductive exn : Type :=
| AttributeError   (* attribute access on None *)
| ParseError       (* xml.etree.ElementTree.ParseError *)
| OtherError (msg : string).

Inductive result (A : Type) : Type :=
| Ok (a : A)
| Raise (e : exn).

Arguments Ok {A} a.
Arguments Raise {A} e.

Definition bind {A B : Type} (m : result A) (k : A -> result B) : result B :=
  match m with
  | Ok a => k a
  | Raise e => Raise e
  end.

Declare Scope py_scope.
Delimit Scope py_scope with py.
Notation "x <- m ;; k" := (bind m (fun x => k))
  (at level 61, m at next level, right associativity) : py_scope.
Local Open Scope py_scope.

(** ** The element tree

    [xml.etree.ElementTree.Element] as far as the script looks at it: the
    tag, the text before the first child ([None] when there is none, as for
    [<a/>] and [<a></a>]) and the children in document order. *)

Inductive Element : Type :=
| Elem (tag : string) (text : option string) (children : list Element).

Definition tag (e : Element) : string := let 'Elem t _ _ := e in t.
Definition text (e : Element) : option string := let 'Elem _ x _ := e in x.
Definition children (e : Element) : list Element := let 'Elem _ _ cs := e in cs.

(** [Element.find(name)] with a plain tag name: the first child, in
    document order, whose tag is [name]; [None] when there is none. *)
Fixpoint find_first (cs : list Element) (name : string) : option Element :=
  match cs with
  | [] => None
  | c :: cs' => if String.eqb (tag c) name then Some c else find_first cs' name
  end.

Definition find (e : Element) (name : string) : option Element :=
  find_first (children e) name.

(** [Element.findall(name)]: every child with that tag, in document order. *)
Definition findall (e : Element) (name : string) : list Element :=
  filter (fun c => String.eqb (tag c) name) (children e).

(** A Python expression [x.find(name)] or [x.text] where [x] may be
    [None]: attribute access on [None] raises [AttributeError]. *)
Definition py_find (x : option Element) (name : string) : result (option Element) :=
  match x with
  | Some e => Ok (find e name)
  | None => Raise AttributeError
  end.

Definition py_text (x : option Element) : result (option string) :=
  match x with
  | Some e => Ok (text e)
  | None => Raise AttributeError
  end.

(** [element is not None] *)
Definition is_not_None {A : Type} (x : option A) : bool :=
  match x with Some _ => true | None => false end.

(** ** get_text_or_none (lines 34-45) *)

Definition get_text_or_none (element : option Element) (subelement : string)
  : result (option string) :=
  if is_not_None element then
    found_element <- py_find element subelement ;;
    if is_not_None found_element then py_text found_element else Ok None
  else Ok None.

(** ** The parsed report (the dictionary built at lines 61-103) *)

Record DateRange : Type := mkDateRange {
  dr_begin : option string;
  dr_end : option string }.

Record ReportMetadata : Type := mkReportMetadata {
  rm_org_name : option string;
  rm_email : option string;
  rm_report_id : option string;
  rm_date_range : DateRange }.

Record PolicyPublished : Type := mkPolicyPublished {
  pp_domain : option string;
  pp_adkim : option string;
  pp_aspf : option string;
  pp_p : option string;
  pp_sp : option string;
  pp_pct : option string }.

Record PolicyEvaluated : Type := mkPolicyEvaluated {
  pe_disposition : option string;
  pe_dkim : option string;
  pe_spf : option string }.

Record Identifiers : Type := mkIdentifiers {
  id_header_from : option string }.

Record AuthResults : Type := mkAuthResults {
  ar_dkim : option string;
  ar_spf : option string }.

Record Row : Type := mkRow {
  row_source_ip : option string;
  row_count : option string;
  row_policy_evaluated : PolicyEvaluated;
  row_identifiers : Identifiers;
  row_auth_results : AuthResults }.

Record Report : Type := mkReport {
  report_metadata : ReportMetadata;
  policy_published : PolicyPublished;
  records : list Row }.

(** ** parse_dmarc_xml (lines 47-105) *)

(** [get_text_or_none(parent.find(child), leaf) if parent is not None else None] *)
Definition guarded_text (parent : option Element) (child leaf : string)
  : result (option string) :=
  if is_not_None parent then
    c <- py_find parent child ;;
    get_text_or_none c leaf
  else Ok None.

(** The body of the loop over [records] (lines 83-102): the dictionary
    built for one [record] element. *)
Definition parse_record (record : Element) : result Row :=
  row_element <- py_find (Some record) "row" ;;
  identifiers_element <- py_find (Some record) "identifiers" ;;
  auth_results_element <- py_find (Some record) "auth_results" ;;
  source_ip <- get_text_or_none row_element "source_ip" ;;
  count <- get_text_or_none row_element "count" ;;
  disposition <- guarded_text row_element "policy_evaluated" "disposition" ;;
  dkim <- guarded_text row_element "policy_evaluated" "dkim" ;;
  spf <- guarded_text row_element "policy_evaluated" "spf" ;;
  header_from <- get_text_or_none identifiers_element "header_from" ;;
  a_dkim <- guarded_text auth_results_element "dkim" "domain" ;;
  a_spf <- guarded_text auth_results_element "spf" "domain" ;;
  Ok {| row_source_ip := source_ip;
        row_count := count;
        row_policy_evaluated :=
          {| pe_disposition := disposition; pe_dkim := dkim; pe_spf := spf |};
        row_identifiers := {| id_header_from := header_from |};
        row_auth_results := {| ar_dkim := a_dkim; ar_spf := a_spf |} |}.

(** [for record in records: ... parsed_data['records'].append(row)]:
    [acc] is the list appended to so far. *)
Fixpoint parse_records_loop (acc : list Row) (rs : list Element)
  : result (list Row) :=
  match rs with
  | [] => Ok acc
  | record :: rs' =>
      row <- parse_record record ;;
      parse_records_loop (acc ++ [row]) rs'
  end.

(** Lines 55-105: everything after [ET.parse], on the root element. *)
Definition parse_root (root : Element) : result Report :=
  report_metadata_e <- py_find (Some root) "report_metadata" ;;
  policy_published_e <- py_find (Some root) "policy_published" ;;
  let record_es := findall root "record" in
  org_name <- get_text_or_none report_metadata_e "org_name" ;;
  email <- get_text_or_none report_metadata_e "email" ;;
  report_id <- get_text_or_none report_metadata_e "report_id" ;;
  begin_ <- guarded_text report_metadata_e "date_range" "begin" ;;
  end_ <- guarded_text report_metadata_e "date_range" "end" ;;
  domain <- get_text_or_none policy_published_e "domain" ;;
  adkim <- get_text_or_none policy_published_e "adkim" ;;
  aspf <- get_text_or_none policy_published_e "aspf" ;;
  p <- get_text_or_none policy_published_e "p" ;;
  sp <- get_text_or_none policy_published_e "sp" ;;
  pct <- get_text_or_none policy_published_e "pct" ;;
  rows <- parse_records_loop [] record_es ;;
  Ok {| report_metadata :=
          {| rm_org_name := org_name; rm_email := email;
             rm_report_id := report_id;
             rm_date_range := {| dr_begin := begin_; dr_end := end_ |} |};
        policy_published :=
          {| pp_domain := domain; pp_adkim := adkim; pp_aspf := aspf;
             pp_p := p; pp_sp := sp; pp_pct := pct |};
        records := rows |}.

(** [ET.parse(xml_file).getroot()] is the XML parser of the Python
    standard library, not code of the script: it is a parameter, which
    returns the root element of the document or raises; for a file that is
    not well-formed XML, which includes a file with no root element at
    all, what it raises is [ParseError]. *)
Section Parse.
Variable ET_parse : string -> result Element.

Definition parse_dmarc_xml (xml_file : string) : result Report :=
  root <- ET_parse xml_file ;;
  parse_root root.
End Parse.

(** ** save_reports_to_csv (lines 143-179) *)

(** The dictionary built at lines 155-175.  Python dictionaries keep the
    insertion order of their keys and pandas reads the columns off it, so
    the row is the list of its items in that order. *)
Definition FlatRow : Type := list (string * option string).

Definition make_row (metadata : ReportMetadata) (policy : PolicyPublished)
    (record : Row) : FlatRow :=
  [ ("org_name", rm_org_name metadata);
    ("email", rm_email metadata);
    ("report_id", rm_report_id metadata);
    ("date_range_begin", dr_begin (rm_date_range metadata));
    ("date_range_end", dr_end (rm_date_range metadata));
    ("domain", pp_domain policy);
    ("adkim", pp_adkim policy);
    ("aspf", pp_aspf policy);
    ("policy_p", pp_p policy);
    ("policy_sp", pp_sp policy);
    ("policy_pct", pp_pct policy);
    ("source_ip", row_source_ip record);
    ("count", row_count record);
    ("disposition", pe_disposition (row_policy_evaluated record));
    ("dkim", pe_dkim (row_policy_evaluated record));
    ("spf", pe_spf (row_policy_evaluated record));
    ("header_from", id_header_from (row_identifiers record));
    ("auth_results_dkim", ar_dkim (row_auth_results record));
    ("auth_results_spf", ar_spf (row_auth_results record)) ].

(** [row[key]] on such a dictionary. *)
Fixpoint row_get (key : string) (row : FlatRow) : option (option string) :=
  match row with
  | [] => None
  | (k, v) :: row' => if String.eqb k key then Some v else row_get key row'
  end.

(** The inner loop, [for record in report['records']: rows.append(row)]. *)
Fixpoint append_records (rows : list FlatRow) (metadata : ReportMetadata)
    (policy : PolicyPublished) (rs : list Row) : list FlatRow :=
  match rs with
  | [] => rows
  | record :: rs' =>
      append_records (rows ++ [make_row metadata policy record]) metadata policy rs'
  end.

(** The outer loop, [for report in reports]. *)
Fixpoint append_reports (rows : list FlatRow) (reports : list Report)
  : list FlatRow :=
  match reports with
  | [] => rows
  | report :: reports' =>
      let metadata := report_metadata report in
      let policy := policy_published report in
      append_reports (append_records rows metadata policy (records report)) reports'
  end.

(** [rows] as it stands at line 177. *)
Definition flatten_rows (reports : list Report) : list FlatRow :=
  append_reports [] reports.

(** The rows of one report in closed form, and the position in the
    output of the row for record [j] of report [i]: after the rows of the
    reports before it. *)
Definition rows_of_report (report : Report) : list FlatRow :=
  map (make_row (report_metadata report) (policy_published report))
      (records report).

Definition record_count (report : Report) : nat := length (records report).

Definition row_index (reports : list Report) (i j : nat) : nat :=
  list_sum (map record_count (firstn i reports)) + j.

(** *** pandas, as far as lines 178-179 use it

    [pd.DataFrame(rows)] on a list of dictionaries takes as columns the
    keys in order of first appearance over the rows (none when the list is
    empty); a row without some key has a missing value there.
    [to_csv(index=False)] writes the column names, then one line per row,
    a missing value ([None] or NaN) as the empty string.  The CSV is kept
    as its grid of cells, line by line: quoting is left out. *)

Record DataFrame : Type := mkDataFrame {
  columns : list string;
  values : list (list (option string)) }.

Definition add_column (cols : list string) (k : string) : list string :=
  if existsb (String.eqb k) cols then cols else cols ++ [k].

Definition union_keys (rows : list FlatRow) : list string :=
  fold_left (fun cols row => fold_left add_column (map fst row) cols) rows [].

Definition cell (row : FlatRow) (col : string) : option string :=
  match row_get col row with
  | Some v => v
  | None => None
  end.

Definition pd_DataFrame (rows : list FlatRow) : DataFrame :=
  let cols := union_keys rows in
  {| columns := cols;
     values := map (fun row => map (cell row) cols) rows |}.

Definition na_rep (v : option string) : string :=
  match v with
  | Some s => s
  | None => EmptyString
  end.

Definition to_csv (df : DataFrame) : list (list string) :=
  columns df :: map (map na_rep) (values df).

(** The content written to [csv_file]. *)
Definition save_reports_to_csv (reports : list Report) : list (list string) :=
  let rows := flatten_rows reports in
  let df := pd_DataFrame rows in
  to_csv df.

(** The nineteen column names of the row dictionary. *)
Definition csv_header : list string :=
  [ "org_name"; "email"; "report_id"; "date_range_begin"; "date_range_end";
    "domain"; "adkim"; "aspf"; "policy_p"; "policy_sp"; "policy_pct";
    "source_ip"; "count"; "disposition"; "dkim"; "spf"; "header_from";
    "auth_results_dkim"; "auth_results_spf" ].

(** ** decompress_gz_files (lines 21-32): the output path *)

(** [s.endswith(suffix)]: some suffix of [s] is [suffix]. *)
Fixpoint endswith (s suffix : string) : bool :=
  String.eqb s suffix ||
  match s with
  | EmptyString => false
  | String _ s' => endswith s' suffix
  end.

(** [s.startswith(p)] *)
Definition startswith (s p : string) : bool := String.prefix p s.

(** [s.replace(old, new)] for a non-empty [old]: every occurrence of [old],
    scanning from the left and resuming after each one, becomes [new].
    [skip] counts the characters of the occurrence just replaced that are
    still to be passed over. *)
Fixpoint replace_scan (old new : string) (skip : nat) (s : string) : string :=
  match s with
  | EmptyString => EmptyString
  | String c s' =>
      match skip with
      | S k => replace_scan old new k s'
      | O =>
          if String.prefix old s
          then new ++ replace_scan old new (String.length old - 1) s'
          else String c (replace_scan old new 0 s')
      end
  end.

(** With an empty [old], Python puts [new] before every character and at
    the end. *)
Fixpoint intersperse_all (new s : string) : string :=
  match s with
  | EmptyString => new
  | String c s' => new ++ String c (intersperse_all new s')
  end.

Definition str_replace (s old new : string) : string :=
  match old with
  | EmptyString => intersperse_all new s
  | String _ _ => replace_scan old new 0 s
  end.

(** [os.path.basename(p)] ([posixpath]): what follows the last slash.
    [candidate] is what follows the last slash seen so far. *)
Fixpoint basename_scan (candidate p : string) : string :=
  match p with
  | EmptyString => candidate
  | String c p' =>
      if Ascii.eqb c "/" then basename_scan p' p' else basename_scan candidate p'
  end.

Definition os_path_basename (p : string) : string := basename_scan p p.

(** [os.path.join(a, b)] ([posixpath]). *)
Definition os_path_join (a b : string) : string :=
  if startswith b "/" then b
  else if String.eqb a EmptyString || endswith a "/" then a ++ b
  else a ++ "/" ++ b.

(** Line 30. *)
Definition gz_output_path (output_dir gz_file : string) : string :=
  os_path_join output_dir (str_replace (os_path_basename gz_file) ".gz" EmptyString).

(** The file name a [.gz] suffix is stripped from, for comparison:
    [name[:-3]] when [name] ends in [.gz]. *)
Definition strip_gz_suffix (name : string) : string :=
  if endswith name ".gz"
  then String.substring 0 (String.length name - 3) name
  else name.

(** [sub in s]: [sub] occurs somewhere in [s]. *)
Fixpoint occurs (sub s : string) : bool :=
  String.prefix sub s ||
  match s with
  | EmptyString => false
  | String _ s' => occurs sub s'
  end.

(** ** The working directory and cleanup_extracted_files (lines 202-211) *)

(** A directory tree: a file, or a directory with its entries.  A path is
    the list of names from the working directory down. *)
Inductive node : Type :=
| File (name : string)
| Dir (name : string) (entries : list node).

Definition path : Type := list string.
Definition FS : Type := list node.   (* the entries of [output_dir] *)

Definition node_name (n : node) : string :=
  match n with File f => f | Dir d _ => d end.

Definition file_names (es : list node) : list string :=
  flat_map (fun n => match n with File f => [f] | Dir _ _ => [] end) es.

Definition dir_names (es : list node) : list string :=
  flat_map (fun n => match n with File _ => [] | Dir d _ => [d] end) es.

(** [os.walk(top)], top-down: each directory yields its path, the names of
    its sub-directories and the names of its other entries, then the
    sub-directories are walked in turn.  The loop of the script removes
    files only, and [os.walk] has listed a directory in full before it
    yields it, so the triples are those of the tree the walk starts on. *)
Fixpoint walk_node (root : path) (n : node)
  : list (path * list string * list string) :=
  match n with
  | File _ => []
  | Dir d es =>
      (root ++ [d], dir_names es, file_names es)
        :: flat_map (walk_node (root ++ [d])) es
  end.

Definition os_walk (fs : FS) : list (path * list string * list string) :=
  ([], dir_names fs, file_names fs) :: flat_map (walk_node []) fs.

(** State and exceptions together: a step returns or raises, and leaves a
    file system either way. *)
Definition io (A : Type) : Type := FS -> result A * FS.

Definition io_ret {A : Type} (a : A) : io A := fun fs => (Ok a, fs).

Definition io_bind {A B : Type} (m : io A) (k : A -> io B) : io B :=
  fun fs =>
    match m fs with
    | (Ok a, fs') => k a fs'
    | (Raise e, fs') => (Raise e, fs')
    end.

Declare Scope io_scope.
Delimit Scope io_scope with io.
Notation "x <- m ;; k" := (io_bind m (fun x => k))
  (at level 61, m at next level, right associativity) : io_scope.

(** [try: body finally: handler]: the handler runs after the body however
    the body ends; its own exception wins, otherwise the outcome of the
    body stands. *)
Definition try_finally {A : Type} (body : io A) (handler : io unit) : io A :=
  fun fs =>
    let '(r, fs1) := body fs in
    match handler fs1 with
    | (Ok _, fs2) => (r, fs2)
    | (Raise e, fs2) => (Raise e, fs2)
    end.

(** Removing the first file called [f] among the entries of a directory. *)
Fixpoint remove_file (f : string) (es : list node) : result (list node) :=
  match es with
  | [] => Raise (OtherError "FileNotFoundError")
  | File g :: es' =>
      if String.eqb g f then Ok es'
      else (es'' <- remove_file f es' ;; Ok (File g :: es''))
  | Dir d sub :: es' =>
      if String.eqb d f then Raise (OtherError "IsADirectoryError")
      else (es'' <- remove_file f es' ;; Ok (Dir d sub :: es''))
  end.

(** Applying [k] to the entries of the directory called [d]. *)
Fixpoint in_dir (d : string) (k : list node -> result (list node))
    (es : list node) : result (list node) :=
  match es with
  | [] => Raise (OtherError "FileNotFoundError")
  | File g :: es' =>
      if String.eqb g d then Raise (OtherError "NotADirectoryError")
      else (es'' <- in_dir d k es' ;; Ok (File g :: es''))
  | Dir d' sub :: es' =>
      if String.eqb d' d then (sub' <- k sub ;; Ok (Dir d' sub' :: es'))
      else (es'' <- in_dir d k es' ;; Ok (Dir d' sub :: es''))
  end.

(** [os.remove(p)] on the tree. *)
Fixpoint remove_at (p : path) (es : list node) : result (list node) :=
  match p with
  | [] => Raise (OtherError "IsADirectoryError")
  | [f] => remove_file f es
  | d :: p' => in_dir d (remove_at p') es
  end.

Definition os_remove (p : path) : io unit :=
  fun fs =>
    match remove_at p fs with
    | Ok fs' => (Ok tt, fs')
    | Raise e => (Raise e, fs)
    end.

(** Lines 209-211, the loop over the files of one directory. *)
Fixpoint remove_xml_files (root : path) (files : list string) : io unit :=
  match files with
  | [] => io_ret tt
  | file :: files' =>
      (_ <- (if endswith file ".xml" then os_remove (root ++ [file]) else io_ret tt) ;;
       remove_xml_files root files')%io
  end.

(** Line 208, the loop over the walk. *)
Fixpoint cleanup_loop (w : list (path * list string * list string)) : io unit :=
  match w with
  | [] => io_ret tt
  | (root, _, files) :: w' =>
      (_ <- remove_xml_files root files ;; cleanup_loop w')%io
  end.

Definition cleanup_extracted_files : io unit :=
  fun fs => cleanup_loop (os_walk fs) fs.

(** ** The script itself (lines 221-227)

    The three steps of the [try] block read archives, call pandas and
    matplotlib and write files: they are arbitrary steps here, each free to
    raise and to change the working directory. *)
Section Script.
Variable process_dmarc_reports_from_directory : io (list Report).
Variable save_reports_to_csv_file : list Report -> io unit.
Variable read_csv_and_display_chart : io unit.

Definition try_block : io unit :=
  (reports <- process_dmarc_reports_from_directory ;;
   _ <- save_reports_to_csv_file reports ;;
   read_csv_and_display_chart)%io.

Definition script : io unit :=
  try_finally try_block cleanup_extracted_files.
End Script.

(** What the cleanup is meant to leave: the tree without its [.xml] files. *)
Fixpoint strip_xml_node (n : node) : list node :=
  match n with
  | File f => if endswith f ".xml" then [] else [File f]
  | Dir d es => [Dir d (flat_map strip_xml_node es)]
  end.

Definition strip_xml (fs : FS) : FS := flat_map strip_xml_node fs.

(** The entries of one directory without its own [.xml] files, the
    sub-directories left as they are: the state after the loop over the
    files of that directory. *)
Definition strip_xml_files (es : list node) : list node :=
  flat_map (fun n =>
              match n with
              | File f => if endswith f ".xml" then [] else [n]
              | Dir _ _ => [n]
              end) es.

(** A triple of the walk of a sub-directory [d], seen from its parent. *)
Definition below (d : string) (t : path * list string * list string)
  : path * list string * list string :=
  let '(root, dirs, files) := t in (d :: root, dirs, files).

(** The outcome of a step run inside the sub-directory [d], seen from the
    directory whose entries are [before ++ Dir d _ :: after]. *)
Definition inside (before : list node) (d : string) (after : list node)
    (x : result unit * FS) : result unit * FS :=
  (fst x, before ++ Dir d (snd x) :: after).

(** The last name of a path. *)
Definition path_name (p : path) : string := last p EmptyString.

(** Walking a directory leaves it without its [.xml] files. *)
Definition cleaned (n : node) : Prop :=
  match n with
  | File _ => True
  | Dir _ sub => cleanup_loop (os_walk sub) sub = (Ok tt, strip_xml sub)
  end.

(** The paths of the files, and of the directories, of a tree. *)
Fixpoint files_of_node (root : path) (n : node) : list path :=
  match n with
  | File f => [root ++ [f]]
  | Dir d es => flat_map (files_of_node (root ++ [d])) es
  end.

Fixpoint dirs_of_node (root : path) (n : node) : list path :=
  match n with
  | File _ => []
  | Dir d es => (root ++ [d]) :: flat_map (dirs_of_node (root ++ [d])) es
  end.

Definition all_files (fs : FS) : list path := flat_map (files_of_node []) fs.
Definition all_dirs (fs : FS) : list path := flat_map (dirs_of_node []) fs.

(** No two entries of a directory share a name, at any depth. *)
Fixpoint distinct (l : list string) : bool :=
  match l with
  | [] => true
  | x :: l' => negb (existsb (String.eqb x) l') && distinct l'
  end.

Fixpoint unique_names_node (n : node) : bool :=
  match n with
  | File _ => true
  | Dir _ es => distinct (map node_name es) && forallb unique_names_node es
  end.

Definition unique_names (fs : FS) : bool :=
  distinct (map node_name fs) && forallb unique_names_node fs.

(** ** read_csv_and_display_chart (lines 187-190): the aggregation

    [df.groupby('source_ip')['count'].sum().nlargest(20)] is pandas.  The
    frame is taken as [read_csv] returns it for a CSV whose [source_ip]
    cells are text and whose [count] cells are all integers: the [count]
    column then has type int64, and a row is its [source_ip] cell, [None]
    for an empty one (NaN), with its count.  With an empty or fractional
    [count] cell the column would be float64, which is not modelled.

    [groupby] drops the rows whose key is missing and, by default
    ([sort=True]), orders the groups by key; [sum] adds in int64 and wraps
    around.  [nlargest(n)] ([keep='first']) on a series of more than [n]
    values returns the [n] largest in descending order, equal values in
    their order in the series (it sorts with a stable merge sort); on a
    series of at most [n] values it returns
    [sort_values(ascending=False).head(n)], whose sort is not stable and
    leaves the order of equal values open: that sort is a parameter. *)

Definition int64_wrap (z : Z) : Z := ((z + 2 ^ 63) mod 2 ^ 64 - 2 ^ 63)%Z.

Definition in_int64 (z : Z) : bool := ((- 2 ^ 63 <=? z) && (z <? 2 ^ 63))%Z.

Definition int64_column (df : list (option string * Z)) : bool :=
  forallb (fun row => in_int64 (snd row)) df.

(** Adding [v] to the group of [k], the groups kept in ascending key order. *)
Fixpoint add_to_group (k : string) (v : Z) (groups : list (string * Z))
  : list (string * Z) :=
  match groups with
  | [] => [(k, v)]
  | (k', v') :: groups' =>
      match String.compare k k' with
      | Eq => (k', int64_wrap (v' + v)) :: groups'
      | Lt => (k, v) :: groups
      | Gt => (k', v') :: add_to_group k v groups'
      end
  end.

(** One row of the frame: it joins the group of its key, or is dropped
    when the key is missing. *)
Definition group_step (groups : list (string * Z)) (row : option string * Z)
  : list (string * Z) :=
  match fst row with
  | Some k => add_to_group k (snd row) groups
  | None => groups
  end.

Definition groupby_sum (df : list (option string * Z)) : list (string * Z) :=
  fold_left group_step df [].

(** Stable insertion for the descending order: [x] goes before the first
    element that is not larger than it. *)
Fixpoint insert_desc (x : string * Z) (l : list (string * Z))
  : list (string * Z) :=
  match l with
  | [] => [x]
  | y :: l' =>
      if (snd y <=? snd x)%Z then x :: y :: l' else y :: insert_desc x l'
  end.

(** The stable sort into descending order. *)
Definition sort_desc (l : list (string * Z)) : list (string * Z) :=
  fold_right insert_desc [] l.

Section Nlargest.
(** [Series.sort_values(ascending=False)] with the default sort. *)
Variable sort_values : list (string * Z) -> list (string * Z).

Definition nlargest (n : nat) (series : list (string * Z)) : list (string * Z) :=
  if Nat.leb (length series) n
  then firstn n (sort_values series)
  else firstn n (sort_desc series).

(** Line 190. *)
Definition ip_counts (df : list (option string * Z)) : list (string * Z) :=
  nlargest 20 (groupby_sum df).
End Nlargest.

(** What is known of [sort_values(ascending=False)]: the same values, the
    larger before the smaller. *)
Definition not_smaller (x y : string * Z) : Prop := (snd y <= snd x)%Z.

Definition descending_sort (sort : list (string * Z) -> list (string * Z)) : Prop :=
  forall l, Permutation l (sort l) /\ StronglySorted not_smaller (sort l).

(** The aggregation as the specification words it, for comparison: the
    groups in the order in which their keys are first met in the rows,
    sorted stably, the first twenty kept. *)
Fixpoint add_to_group_encounter (k : string) (v : Z) (groups : list (string * Z))
  : list (string * Z) :=
  match groups with
  | [] => [(k, v)]
  | (k', v') :: groups' =>
      if String.eqb k k' then (k', int64_wrap (v' + v)) :: groups'
      else (k', v') :: add_to_group_encounter k v groups'
  end.

Definition groupby_sum_encounter (df : list (option string * Z))
  : list (string * Z) :=
  fold_left
    (fun groups row =>
       match fst row with
       | Some k => add_to_group_encounter k (snd row) groups
       | None => groups
       end)
    df [].

Definition ip_counts_first_encountered (df : list (option string * Z))
  : list (string * Z) :=
  firstn 20 (sort_desc (groupby_sum_encounter df)).

(** ** Reading a field along a path of tags

    The element reached from [e] by taking, tag after tag, the first child
    with that tag; and its text.  The parser's fields are compared with
    this below. *)
Fixpoint descend (e : Element) (p : list string) : option Element :=
  match p with
  | [] => Some e
  | name :: p' =>
      match find e name with
      | Some c => descend c p'
      | None => None
      end
  end.

Definition text_at (e : Element) (p : list string) : option string :=
  match descend e p with
  | Some c => text c
  | None => None
  end.

(** The text read below an optional element, whichever of the two forms
    the script uses. *)
Definition text_below (x : option Element) (p : list string) : option string :=
  match x with
  | Some e => text_at e p
  | None => None
  end.

(** The row built for a [record] element, in closed form. *)
Definition row_of (record : Element) : Row :=
  {| row_source_ip := text_at record ["row"; "source_ip"];
     row_count := text_at record ["row"; "count"];
     row_policy_evaluated :=
       {| pe_disposition := text_at record ["row"; "policy_evaluated"; "disposition"];
          pe_dkim := text_at record ["row"; "policy_evaluated"; "dkim"];
          pe_spf := text_at record ["row"; "policy_evaluated"; "spf"] |};
     row_identifiers :=
       {| id_header_from := text_at record ["identifiers"; "header_from"] |};
     row_auth_results :=
       {| ar_dkim := text_at record ["auth_results"; "dkim"; "domain"];
          ar_spf := text_at record ["auth_results"; "spf"; "domain"] |} |}.

(** The report built for a root element, in closed form. *)
Definition report_of (root : Element) : Report :=
  {| report_metadata :=
       {| rm_org_name := text_at root ["report_metadata"; "org_name"];
          rm_email := text_at root ["report_metadata"; "email"];
          rm_report_id := text_at root ["report_metadata"; "report_id"];
          rm_date_range :=
            {| dr_begin := text_at root ["report_metadata"; "date_range"; "begin"];
               dr_end := text_at root ["report_metadata"; "date_range"; "end"] |} |};
     policy_published :=
       {| pp_domain := text_at root ["policy_published"; "domain"];
          pp_adkim := text_at root ["policy_published"; "adkim"];
          pp_aspf := text_at root ["policy_published"; "aspf"];
          pp_p := text_at root ["policy_published"; "p"];
          pp_sp := text_at root ["policy_published"; "sp"];
          pp_pct := text_at root ["policy_published"; "pct"] |};
     records := map row_of (findall root "record") |}.

(** The eleven fields read once per report, with the path of each below
    the root, and the eight read once per record, with the path of each
    below the [record] element. *)
Definition report_fields : list (list string * (Report -> option string)) :=
  [ (["report_metadata"; "org_name"], fun r => rm_org_name (report_metadata r));
    (["report_metadata"; "email"], fun r => rm_email (report_metadata r));
    (["report_metadata"; "report_id"], fun r => rm_report_id (report_metadata r));
    (["report_metadata"; "date_range"; "begin"],
       fun r => dr_begin (rm_date_range (report_metadata r)));
    (["report_metadata"; "date_range"; "end"],
       fun r => dr_end (rm_date_range (report_metadata r)));
    (["policy_published"; "domain"], fun r => pp_domain (policy_published r));
    (["policy_published"; "adkim"], fun r => pp_adkim (policy_published r));
    (["policy_published"; "aspf"], fun r => pp_aspf (policy_published r));
    (["policy_published"; "p"], fun r => pp_p (policy_published r));
    (["policy_published"; "sp"], fun r => pp_sp (policy_published r));
    (["policy_published"; "pct"], fun r => pp_pct (policy_published r)) ].

Definition record_fields : list (list string * (Row -> option string)) :=
  [ (["row"; "source_ip"], row_source_ip);
    (["row"; "count"], row_count);
    (["row"; "policy_evaluated"; "disposition"],
       fun r => pe_disposition (row_policy_evaluated r));
    (["row"; "policy_evaluated"; "dkim"],
       fun r => pe_dkim (row_policy_evaluated r));
    (["row"; "policy_evaluated"; "spf"],
       fun r => pe_spf (row_policy_evaluated r));
    (["identifiers"; "header_from"],
       fun r => id_header_from (row_identifiers r));
    (["auth_results"; "dkim"; "domain"],
       fun r => ar_dkim (row_auth_results r));
    (["auth_results"; "spf"; "domain"],
       fun r => ar_spf (row_auth_results r)) ].

(** The records with every field null. *)
Definition null_policy_evaluated : PolicyEvaluated :=
  {| pe_disposition := None; pe_dkim := None; pe_spf := None |}.

Definition null_row : Row :=
  {| row_source_ip := None; row_count := None;
     row_policy_evaluated := null_policy_evaluated;
     row_identifiers := {| id_header_from := None |};
     row_auth_results := {| ar_dkim := None; ar_spf := None |} |}.

Definition null_metadata : ReportMetadata :=
  {| rm_org_name := None; rm_email := None; rm_report_id := None;
     rm_date_range := {| dr_begin := None; dr_end := None |} |}.

Definition null_policy : PolicyPublished :=
  {| pp_domain := None; pp_adkim := None; pp_aspf := None;
     pp_p := None; pp_sp := None; pp_pct := None |}.

(** What a missing node under a [record] element means for the row built
    from it: every field read beneath the missing node is null. *)
Definition nulls_beneath_missing (record : Element) (row : Row) : Prop :=
  (find record "row" = None ->
     row_source_ip row = None /\ row_count row = None /\
     row_policy_evaluated row = null_policy_evaluated) /\
  (forall r, find record "row" = Some r -> find r "policy_evaluated" = None ->
     row_policy_evaluated row = null_policy_evaluated) /\
  (find record "identifiers" = None -> id_header_from (row_identifiers row) = None) /\
  (find record "auth_results" = None ->
     ar_dkim (row_auth_results row) = None /\ ar_spf (row_auth_results row) = None) /\
  (forall a, find record "auth_results" = Some a ->
     (find a "dkim" = None -> ar_dkim (row_auth_results row) = None) /\
     (find a "spf" = None -> ar_spf (row_auth_results row) = None)) /\
  (find record "row" = None -> find record "identifiers" = None ->
   find record "auth_results" = None -> row = null_row).

(** ** A sample document

    A report whose metadata has no [date_range], with no
    [policy_published], an empty record, a record given twice and a full
    one; and a stand-in for the XML parser that reads it from any path. *)
Definition leaf (name value : string) : Element := Elem name (Some value) [].

Definition sample_record : Element :=
  Elem "record" None
    [ Elem "row" None
        [ leaf "source_ip" "192.0.2.1"; leaf "count" "2";
          Elem "policy_evaluated" None
            [ leaf "disposition" "none"; leaf "dkim" "pass"; leaf "spf" "fail" ] ];
      Elem "identifiers" None [ leaf "header_from" "example.com" ];
      Elem "auth_results" None
        [ Elem "dkim" None [ leaf "domain" "example.com" ];
          Elem "dkim" None [ leaf "domain" "other.example" ];
          Elem "spf" None [ leaf "domain" "example.com" ] ] ].

Definition sample_root : Element :=
  Elem "feedback" None
    [ Elem "report_metadata" None
        [ leaf "org_name" "google.com"; Elem "email" None [];
          leaf "report_id" "42" ];
      Elem "record" None [];
      sample_record;
      sample_record;
      Elem "report_metadata" None [ leaf "org_name" "ignored" ] ].

Definition sample_ET_parse (xml_file : string) : result Element :=
  Ok sample_root.

(** *** What the aggregation is compared with *)

(** The sum recorded for a key in a series, if any. *)
Fixpoint group_sum (k : string) (groups : list (string * Z)) : option Z :=
  match groups with
  | [] => None
  | (k', v) :: groups' => if String.eqb k' k then Some v else group_sum k groups'
  end.

(** The rows of the frame with a given [source_ip], and the sum of their
    counts as an integer. *)
Definition has_key (k : string) (row : option string * Z) : bool :=
  match fst row with
  | Some k' => String.eqb k' k
  | None => false
  end.

Definition total_count (k : string) (df : list (option string * Z)) : Z :=
  fold_right Z.add 0%Z (map snd (filter (has_key k) df)).

(** Ascending order of the keys, as Python compares strings. *)
Definition key_lt (x y : string * Z) : Prop := String.compare (fst x) (fst y) = Lt.

(** The order at the cut: the larger sum first and, of two equal sums, the
    smaller key first. *)
Definition ranks_before (x y : string * Z) : Prop :=
  (snd y < snd x)%Z \/ (snd x = snd y /\ String.compare (fst x) (fst y) = Lt).

(** Twenty-one addresses with one message each, the address that sorts
    last met first. *)
Definition tie_rows : list (option string * Z) :=
  map (fun k => (Some k, 1%Z))
    [ "u"; "a"; "b"; "c"; "d"; "e"; "f"; "g"; "h"; "i"; "j"; "k"; "l"; "m";
      "n"; "o"; "p"; "q"; "r"; "s"; "t" ].

(** The frame of the example: addresses A, A, B, C with counts 1, 2, 5, 10. *)
Definition example_rows : list (option string * Z) :=
  [ (Some "A", 1%Z); (Some "A", 2%Z); (Some "B", 5%Z); (Some "C", 10%Z) ].

(** ** ET.parse (line 54)

    [xml.etree.ElementTree.parse] belongs to the library, not to the
    script.  It is modelled on the lexical items of a document, as the
    library's parser meets them once the file is open and its encoding is
    known (encodings are left out): start
    tags, end tags ([<a/>] is a start tag followed by its end tag),
    character data, the markup that builds nothing (comments, processing
    instructions, the declarations of the prolog), and whatever the grammar
    of XML does not admit.  Attributes are left out: the script reads none. *)

Module ET.

Inductive token : Type :=
| Start (name : string)    (* <name ...> *)
| End_ (name : string)     (* </name> *)
| Data (chars : string)    (* character data, CDATA sections included *)
| Misc                     (* a comment, a processing instruction, a declaration *)
| Junk.                    (* anything that is not XML *)

(** An element whose end tag has not been read yet. *)
Record open_element : Type := {
  open_tag : string;
  open_text : option string;
  open_children : list Element
}.

(** The parser with its tree builder: the open elements, the innermost
    first, and the root once it is closed. *)
Record parser : Type := {
  stack : list open_element;
  root : option Element
}.

Definition XMLParser : parser := {| stack := []; root := None |}.

Definition new_element (name : string) : open_element :=
  {| open_tag := name; open_text := None; open_children := [] |}.

Definition close_element (o : open_element) : Element :=
  Elem (open_tag o) (open_text o) (open_children o).

Definition append (child : Element) (o : open_element) : open_element :=
  {| open_tag := open_tag o;
     open_text := open_text o;
     open_children := open_children o ++ [child] |}.

(** Character data inside an element: before the first child it is the
    element's text, the pieces joined; after a child it is that child's
    tail, which [Element] does not keep. *)
Definition add_data (chars : string) (o : open_element) : open_element :=
  match open_children o with
  | [] =>
      {| open_tag := open_tag o;
         open_text := Some (match open_text o with
                            | Some t => (t ++ chars)%string
                            | None => chars
                            end);
         open_children := [] |}
  | _ :: _ => o
  end.

Definition is_space (c : ascii) : bool :=
  match nat_of_ascii c with
  | 9 | 10 | 13 | 32 => true
  | _ => false
  end.

Fixpoint whitespace (s : string) : bool :=
  match s with
  | EmptyString => true
  | String c s' => is_space c && whitespace s'
  end.

(** One item fed to the parser.  Outside the root element only white
    space and [Misc] are let through; a second root, an end tag that
    closes nothing or another element than the innermost open one, and
    [Junk] raise [ParseError]. *)
Definition feed (p : parser) (t : token) : result parser :=
  match t with
  | Junk => Raise ParseError
  | Misc => Ok p
  | Start name =>
      match stack p, root p with
      | [], Some _ => Raise ParseError
      | _, _ => Ok {| stack := new_element name :: stack p; root := root p |}
      end
  | End_ name =>
      match stack p with
      | [] => Raise ParseError
      | o :: outer =>
          if String.eqb (open_tag o) name
          then match outer with
               | [] => Ok {| stack := []; root := Some (close_element o) |}
               | parent :: outer' =>
                   Ok {| stack := append (close_element o) parent :: outer';
                         root := root p |}
               end
          else Raise ParseError
      end
  | Data chars =>
      match stack p with
      | [] => if whitespace chars then Ok p else Raise ParseError
      | o :: outer => Ok {| stack := add_data chars o :: outer; root := root p |}
      end
  end.

Fixpoint feed_all (p : parser) (tokens : list token) : result parser :=
  match tokens with
  | [] => Ok p
  | t :: tokens' =>
      p' <- feed p t ;;
      feed_all p' tokens'
  end.

(** The end of the input: the root, or [ParseError] when an element is
    still open or no element was read at all. *)
Definition close (p : parser) : result Element :=
  match stack p, root p with
  | [], Some r => Ok r
  | _, _ => Raise ParseError
  end.

(** [ET.XML]: a whole document fed to a new parser. *)
Definition XML (tokens : list token) : result Element :=
  p <- feed_all XMLParser tokens ;;
  close p.

(** [ET.parse(source).getroot()]; [open_file] is what opening and reading
    the file gives: its items, or the exception of [open]. *)
Definition parse (open_file : string -> result (list token)) (source : string)
  : result Element :=
  tokens <- open_file source ;;
  XML tokens.

(** *** Well-formed documents, by the grammar

    The content of an element: character data, [Misc] and elements, each
    closed by the end tag of its own name. *)
Inductive content : list token -> Prop :=
| content_nil : content []
| content_data chars l : content l -> content (Data chars :: l)
| content_misc l : content l -> content (Misc :: l)
| content_element name inner l :
    content inner -> content l ->
    content (Start name :: inner ++ End_ name :: l).

(** What may stand before and after the root element. *)
Definition blank_token (t : token) : bool :=
  match t with
  | Misc => true
  | Data chars => whitespace chars
  | _ => false
  end.

Definition blank (l : list token) : bool := forallb blank_token l.

(** A document whose root element is [name]. *)
Definition document (name : string) (l : list token) : Prop :=
  exists before inner after,
    l = before ++ Start name :: inner ++ End_ name :: after /\
    blank before = true /\ content inner /\ blank after = true.

Definition well_formed (l : list token) : Prop :=
  exists name, document name l.

(** The items still to come when the elements named [names], the
    innermost first, are open: content and the end tag of each in turn,
    then [after]. *)
Inductive closing : list string -> list token -> list token -> Prop :=
| closing_nil after : closing [] after after
| closing_cons name names inner l after :
    content inner -> closing names l after ->
    closing (name :: names) (inner ++ End_ name :: l) after.

Definition is_start (t : token) : bool :=
  match t with
  | Start _ => true
  | _ => false
  end.

Definition starts (name : string) (t : token) : bool :=
  match t with
  | Start name' => String.eqb name' name
  | _ => false
  end.

End ET.

(** A report as a mail provider sends it, and a page that is no report. *)
Definition sample_tokens : list ET.token :=
  [ ET.Misc; ET.Start "feedback"; ET.Data " ";
    ET.Start "report_metadata";
    ET.Start "org_name"; ET.Data "google"; ET.Data ".com"; ET.End_ "org_name";
    ET.Data " "; ET.Start "email"; ET.End_ "email";
    ET.End_ "report_metadata"; ET.Misc;
    ET.Start "record";
    ET.Start "row";
    ET.Start "source_ip"; ET.Data "192.0.2.1"; ET.End_ "source_ip";
    ET.Start "count"; ET.Data "2"; ET.End_ "count";
    ET.End_ "row";
    ET.End_ "record";
    ET.End_ "feedback"; ET.Data " " ].

Definition html_tokens : list ET.token :=
  [ ET.Start "html";
    ET.Start "body"; ET.Data "moved"; ET.End_ "body";
    ET.End_ "html" ].

Definition unclosed_tokens : list ET.token :=
  [ ET.Start "feedback"; ET.Start "record"; ET.End_ "feedback" ].

(** ** process_dmarc_reports_from_directory (lines 107-141) *)

(** The string [os.walk(top)] yields for the directory at [p] below [top],
    and [os.path.join(root, file)] for a file there: the names joined on
    to [top] one after the other. *)
Definition path_string (top : string) (p : path) : string :=
  fold_left os_path_join p top.

(** Lines 120-124, the loop over the files of one directory: a name ending
    in [.zip] goes to the first list, otherwise one ending in [.gz] to the
    second. *)
Fixpoint classify_files (root : string) (files : list string)
    (found : list string * list string) : list string * list string :=
  match files with
  | [] => found
  | file :: files' =>
      let '(zip_files, gz_files) := found in
      if endswith file ".zip"
      then classify_files root files' (zip_files ++ [os_path_join root file], gz_files)
      else if endswith file ".gz"
      then classify_files root files' (zip_files, gz_files ++ [os_path_join root file])
      else classify_files root files' (zip_files, gz_files)
  end.

(** Line 119, the loop over the walk of [directory]. *)
Fixpoint locate_loop (directory : string)
    (w : list (path * list string * list string))
    (found : list string * list string) : list string * list string :=
  match w with
  | [] => found
  | (root, _, files) :: w' =>
      locate_loop directory w'
        (classify_files (path_string directory root) files found)
  end.

(** Lines 115-124, on the entries of [directory]: the walk only reads, so
    it sees the tree as it is when the function is called. *)
Definition locate_archives (directory : string) (entries : FS)
  : list string * list string :=
  locate_loop directory (os_walk entries) ([], []).

(** The files a walk comes by, in its order: the directory and the name. *)
Definition walk_entries (w : list (path * list string * list string))
  : list (path * string) :=
  flat_map (fun t => let '(root, _, files) := t in map (pair root) files) w.

Definition entry_path (rf : path * string) : path := fst rf ++ [snd rf].

Definition has_suffix (suffix : string) (rf : path * string) : bool :=
  endswith (snd rf) suffix.

Section Process.
Variable ET_parse : string -> result Element.

(** [zipfile.ZipFile(zip_file).extractall(output_dir)], and the body of
    the loop of decompress_gz_files for one archive and its output path:
    library calls that write into the working directory or raise. *)
Variable extractall : string -> string -> io unit.
Variable gunzip_to : string -> string -> io unit.

(** decompress_zip_files (lines 10-19). *)
Fixpoint decompress_zip_files (zip_files : list string) (output_dir : string)
  : io unit :=
  match zip_files with
  | [] => io_ret tt
  | zip_file :: zip_files' =>
      (_ <- extractall zip_file output_dir ;;
       decompress_zip_files zip_files' output_dir)%io
  end.

(** decompress_gz_files (lines 21-32) as a step on the working directory. *)
Fixpoint decompress_gz_files_io (gz_files : list string) (output_dir : string)
  : io unit :=
  match gz_files with
  | [] => io_ret tt
  | gz_file :: gz_files' =>
      (_ <- gunzip_to gz_file (gz_output_path output_dir gz_file) ;;
       decompress_gz_files_io gz_files' output_dir)%io
  end.

(** Lines 135-139, the loop over the files of one directory. *)
Fixpoint parse_files (root : string) (files : list string)
    (all_reports : list Report) : result (list Report) :=
  match files with
  | [] => Ok all_reports
  | file :: files' =>
      if endswith file ".xml" then
        report <- parse_dmarc_xml ET_parse (os_path_join root file) ;;
        parse_files root files' (all_reports ++ [report])
      else parse_files root files' all_reports
  end.

(** Line 134, the loop over the walk of [output_dir]. *)
Fixpoint parse_walk (output_dir : string)
    (w : list (path * list string * list string))
    (all_reports : list Report) : result (list Report) :=
  match w with
  | [] => Ok all_reports
  | (root, _, files) :: w' =>
      all_reports' <- parse_files (path_string output_dir root) files all_reports ;;
      parse_walk output_dir w' all_reports'
  end.

(** The function: [entries] is the tree of [directory] when it is called,
    the state is the tree of [output_dir].  Parsing only reads. *)
Definition process_dmarc_reports_from_directory (directory : string) (entries : FS)
    (output_dir : string) : io (list Report) :=
  let '(zip_files, gz_files) := locate_archives directory entries in
  (_ <- decompress_zip_files zip_files output_dir ;;
   _ <- decompress_gz_files_io gz_files output_dir ;;
   (fun fs => (parse_walk output_dir (os_walk fs) [], fs)))%io.
End Process.

(** The reports of a list of files, one after the other, stopping at the
    first that does not parse: what the two parsing loops amount to. *)
Fixpoint parse_each (ET_parse : string -> result Element)
    (xml_files : list string) : result (list Report) :=
  match xml_files with
  | [] => Ok []
  | xml_file :: xml_files' =>
      report <- parse_dmarc_xml ET_parse xml_file ;;
      reports <- parse_each ET_parse xml_files' ;;
      Ok (report :: reports)
  end.

(** The [.xml] files of a tree as the parsing loop meets them. *)
Definition xml_files_of (output_dir : string) (fs : FS) : list string :=
  map (fun rf => path_string output_dir (entry_path rf))
      (filter (has_suffix ".xml") (walk_entries (os_walk fs))).

(** ** More about the data *)

(** The paths of the report fields and of the record fields, in the order
    of the columns. *)
Definition report_paths : list (list string) := map fst report_fields.
Definition record_paths : list (list string) := map fst record_fields.

(** The sum of a column of counts. *)
Definition sum_counts (l : list Z) : Z := fold_right Z.add 0%Z l.

(** A row of the frame that has a [source_ip]. *)
Definition keyed (row : option string * Z) : bool :=
  match fst row with
  | Some _ => true
  | None => false
  end.

(** A small tree for the working directory. *)
Definition sample_tree : FS :=
  [ File "a.xml"; File "b.zip"; File "notes.txt";
    Dir "sub" [ File "c.xml.gz"; File "d.xml"; Dir "deep" [ File "e.zip" ] ] ].

(** Stand-ins for the library calls: extraction that changes nothing, and
    an XML parser that rejects one file. *)
Definition no_extraction (archive target : string) : io unit := io_ret tt.

Definition reject_file (bad : string) (xml_file : string) : result Element :=
  if String.eqb xml_file bad then Raise ParseError else Ok sample_root.

(** * Properties *)

(** ** The error monad *)

Lemma bind_Ok {A B : Type} (a : A) (k : A -> result B) : bind (Ok a) k = k a.
Proof. reflexivity. Qed.

Lemma bind_inv_Ok {A B : Type} (m : result A) (k : A -> result B) (b : B) :
  bind m k = Ok b -> exists a, m = Ok a /\ k a = Ok b.
Proof. destruct m as [a|e]; simpl; intros H; [eauto | discriminate]. Qed.

(** ** The parser never dereferences None *)

Lemma get_text_or_none_Some (e : Element) (name : string) :
  get_text_or_none (Some e) name = Ok (text_at e [name]).
Proof.
  unfold get_text_or_none, text_at; simpl.
  destruct (find e name) as [c|]; reflexivity.
Qed.

Lemma get_text_or_none_None (name : string) :
  get_text_or_none None name = Ok None.
Proof. reflexivity. Qed.

Lemma guarded_text_Some (e : Element) (child leaf : string) :
  guarded_text (Some e) child leaf = Ok (text_at e [child; leaf]).
Proof.
  unfold guarded_text, text_at; simpl.
  destruct (find e child) as [c|]; simpl.
  - rewrite get_text_or_none_Some. unfold text_at. simpl.
    destruct (find c leaf); reflexivity.
  - reflexivity.
Qed.

Lemma guarded_text_None (child leaf : string) :
  guarded_text None child leaf = Ok None.
Proof. reflexivity. Qed.

Lemma get_text_or_none_total (x : option Element) (name : string) :
  get_text_or_none x name = Ok (text_below x [name]).
Proof. destruct x; [apply get_text_or_none_Some | reflexivity]. Qed.

Lemma guarded_text_total (x : option Element) (child leaf : string) :
  guarded_text x child leaf = Ok (text_below x [child; leaf]).
Proof. destruct x; [apply guarded_text_Some | reflexivity]. Qed.

Lemma text_below_find (e : Element) (name : string) (p : list string) :
  text_below (find e name) p = text_at e (name :: p).
Proof. unfold text_below, text_at; simpl. destruct (find e name); reflexivity. Qed.

Lemma parse_record_total (record : Element) :
  parse_record record = Ok (row_of record).
Proof.
  unfold parse_record. simpl py_find. rewrite !bind_Ok.
  repeat (rewrite ?get_text_or_none_total, ?guarded_text_total; rewrite bind_Ok).
  unfold row_of. rewrite !text_below_find. reflexivity.
Qed.

Lemma parse_records_loop_total (rs : list Element) (acc : list Row) :
  parse_records_loop acc rs = Ok (acc ++ map row_of rs).
Proof.
  revert acc. induction rs as [|r rs IH]; intros acc; simpl.
  - rewrite app_nil_r. reflexivity.
  - rewrite parse_record_total, bind_Ok, IH, <- app_assoc. reflexivity.
Qed.

Lemma parse_root_total (root : Element) :
  parse_root root = Ok (report_of root).
Proof.
  unfold parse_root. simpl py_find. rewrite !bind_Ok.
  repeat (rewrite ?get_text_or_none_total, ?guarded_text_total; rewrite bind_Ok).
  rewrite parse_records_loop_total, bind_Ok. simpl app.
  unfold report_of. rewrite !text_below_find. reflexivity.
Qed.

Lemma parse_dmarc_xml_total (ET_parse : string -> result Element)
    (xml_file : string) (root : Element) :
  ET_parse xml_file = Ok root ->
  parse_dmarc_xml ET_parse xml_file = Ok (report_of root).
Proof. intros H. unfold parse_dmarc_xml. rewrite H. apply parse_root_total. Qed.

Lemma Forall2_map_self {A B : Type} (P : A -> B -> Prop) (f : A -> B) (l : list A) :
  (forall x, P x (f x)) -> Forall2 P l (map f l).
Proof. intros H. induction l; simpl; constructor; auto. Qed.

(** Splits a conjunction of implications and rewrites with the [find]
    hypotheses of each. *)
Ltac by_find_cases :=
  repeat match goal with
         | |- _ /\ _ => split
         | |- forall _, _ => intro
         | H : find _ _ = _ |- _ => rewrite H; clear H
         end;
  auto.

Lemma row_of_nulls (record : Element) : nulls_beneath_missing record (row_of record).
Proof. unfold nulls_beneath_missing, row_of, text_at; simpl. by_find_cases. Qed.

(** C1.  Whatever root element the XML parser returns, [parse_dmarc_xml]
    returns a report and raises nothing.  When [report_metadata] is
    missing all five metadata fields are null; when only its [date_range]
    is missing both dates are null; when [policy_published] is missing its
    six fields are null.  Every [record] element gives one row, none is
    skipped, and in that row every field read beneath a missing [row],
    [policy_evaluated], [identifiers], [auth_results], [dkim] or [spf] is
    null; a record with none of [row], [identifiers], [auth_results] gives
    the row with all fields null. *)
Theorem parse_tolerates_missing_nodes :
  forall (ET_parse : string -> result Element) (xml_file : string) (root : Element),
    ET_parse xml_file = Ok root ->
    exists report,
      parse_dmarc_xml ET_parse xml_file = Ok report /\
      (find root "report_metadata" = None ->
         report_metadata report = null_metadata) /\
      (forall m, find root "report_metadata" = Some m ->
         find m "date_range" = None ->
         rm_date_range (report_metadata report)
           = {| dr_begin := None; dr_end := None |}) /\
      (find root "policy_published" = None ->
         policy_published report = null_policy) /\
      Forall2 nulls_beneath_missing (findall root "record") (records report).
Proof.
  intros ET_parse xml_file root Hroot.
  exists (report_of root). split; [now apply parse_dmarc_xml_total|].
  unfold report_of, text_at; simpl.
  split; [|split; [|split]]; [by_find_cases ..|].
  apply Forall2_map_self, row_of_nulls.
Qed.

Lemma parse_tolerates_missing_nodes_witness :
  sample_ET_parse "report.xml" = Ok sample_root /\
  exists report,
    parse_dmarc_xml sample_ET_parse "report.xml" = Ok report /\
    policy_published report = null_policy /\
    rm_date_range (report_metadata report)
      = {| dr_begin := None; dr_end := None |} /\
    nth_error (records report) 0 = Some null_row.
Proof.
  split; [reflexivity|].
  destruct (parse_tolerates_missing_nodes sample_ET_parse "report.xml"
              sample_root eq_refl)
    as (report & Hparse & _ & Hdate & Hpolicy & Hrecords).
  exists report. split; [exact Hparse|].
  split; [apply Hpolicy; reflexivity|].
  split; [eapply Hdate; reflexivity|].
  vm_compute in Hparse. injection Hparse as <-. reflexivity.
Defined.

(** ** Every field is the text found along its path *)

Lemma report_fields_text (root : Element) :
  Forall (fun pg => snd pg (report_of root) = text_at root (fst pg)) report_fields.
Proof. unfold report_fields. repeat constructor. Qed.

Lemma record_fields_text (record : Element) :
  Forall (fun pg => snd pg (row_of record) = text_at record (fst pg)) record_fields.
Proof. unfold record_fields. repeat constructor. Qed.

Lemma report_field_text (root : Element) (p : list string)
    (get : Report -> option string) :
  In (p, get) report_fields -> get (report_of root) = text_at root p.
Proof.
  intros Hin. pose proof (report_fields_text root) as H.
  rewrite Forall_forall in H. exact (H _ Hin).
Qed.

Lemma record_field_text (record : Element) (p : list string)
    (get : Row -> option string) :
  In (p, get) record_fields -> get (row_of record) = text_at record p.
Proof.
  intros Hin. pose proof (record_fields_text record) as H.
  rewrite Forall_forall in H. exact (H _ Hin).
Qed.

Lemma parse_root_inv (root : Element) (report : Report) :
  parse_root root = Ok report -> report = report_of root.
Proof. rewrite parse_root_total. congruence. Qed.

(** C9.  An element that is present with no text gives a null field, the
    value an absent element gives: in [get_text_or_none], and so in each of
    the eleven report fields and the eight record fields of a parsed
    report, whose value is null both when the element the field is read
    from has no text and when there is no such element. *)
Theorem empty_element_reads_as_null :
  forall (root : Element) (report : Report),
    parse_root root = Ok report ->
    (forall e name c, find e name = Some c -> text c = None ->
       get_text_or_none (Some e) name = Ok None) /\
    (forall e name, find e name = None ->
       get_text_or_none (Some e) name = Ok None) /\
    (forall p get, In (p, get) report_fields ->
       (forall c, descend root p = Some c -> text c = None -> get report = None) /\
       (descend root p = None -> get report = None)) /\
    Forall2
      (fun record row =>
         forall p get, In (p, get) record_fields ->
           (forall c, descend record p = Some c -> text c = None -> get row = None) /\
           (descend record p = None -> get row = None))
      (findall root "record") (records report).
Proof.
  intros root report Hparse. apply parse_root_inv in Hparse. subst report.
  split; [|split; [|split]].
  - intros e name c Hf Ht. rewrite get_text_or_none_Some.
    unfold text_at; simpl. rewrite Hf, Ht. reflexivity.
  - intros e name Hf. rewrite get_text_or_none_Some.
    unfold text_at; simpl. rewrite Hf. reflexivity.
  - intros p get Hin. rewrite (report_field_text root _ _ Hin). unfold text_at.
    split.
    + intros c Hd Ht. rewrite Hd. exact Ht.
    + intros Hd. rewrite Hd. reflexivity.
  - simpl. apply Forall2_map_self. intros record p get Hin.
    rewrite (record_field_text record _ _ Hin). unfold text_at. split.
    + intros c Hd Ht. rewrite Hd. exact Ht.
    + intros Hd. rewrite Hd. reflexivity.
Qed.

Lemma empty_element_reads_as_null_witness :
  parse_root sample_root = Ok (report_of sample_root) /\
  rm_email (report_metadata (report_of sample_root)) = None /\
  dr_begin (rm_date_range (report_metadata (report_of sample_root))) = None.
Proof.
  split; [reflexivity|].
  destruct (empty_element_reads_as_null sample_root (report_of sample_root) eq_refl)
    as (_ & _ & Hfields & _).
  split.
  - apply (proj1 (Hfields ["report_metadata"; "email"]
                    (fun r => rm_email (report_metadata r))
                    (or_intror (or_introl eq_refl)))
              (Elem "email" None []) eq_refl eq_refl).
  - apply (proj2 (Hfields ["report_metadata"; "date_range"; "begin"]
                    (fun r => dr_begin (rm_date_range (report_metadata r)))
                    (or_intror (or_intror (or_intror (or_introl eq_refl)))))
              eq_refl).
Defined.

(** ** The first of several siblings *)

Lemma find_first_app (before after : list Element) (c : Element) (name : string) :
  tag c = name ->
  Forall (fun x => tag x <> name) before ->
  find_first (before ++ c :: after) name = Some c.
Proof.
  intros Hc Hbefore. induction Hbefore as [|x before Hx _ IH]; simpl.
  - rewrite (proj2 (String.eqb_eq _ _) Hc). reflexivity.
  - rewrite (proj2 (String.eqb_neq _ _) Hx). exact IH.
Qed.

(** C10.  Of several sibling elements with one tag, [find] returns the
    first in document order, whatever follows it.  Every field of a parsed
    report is the text of the element reached from the root, and every
    field of a row the text of the element reached from its [record]
    element, by taking the first child with the tag at each step, so later
    siblings with the same tag are not read; the [record] children of the
    root are all kept, one row each, in document order. *)
Theorem first_sibling_is_read :
  forall (root : Element) (report : Report),
    parse_root root = Ok report ->
    (forall e name before c after,
       children e = before ++ c :: after ->
       tag c = name ->
       Forall (fun x => tag x <> name) before ->
       find e name = Some c) /\
    (forall p get, In (p, get) report_fields -> get report = text_at root p) /\
    Forall2
      (fun record row =>
         forall p get, In (p, get) record_fields -> get row = text_at record p)
      (filter (fun c => String.eqb (tag c) "record") (children root))
      (records report).
Proof.
  intros root report Hparse. apply parse_root_inv in Hparse. subst report.
  split; [|split].
  - intros e name before c after Hch Hc Hbefore. unfold find. rewrite Hch.
    now apply find_first_app.
  - intros p get Hin. now apply report_field_text.
  - simpl. apply Forall2_map_self. intros record p get Hin.
    now apply record_field_text.
Qed.

Lemma first_sibling_is_read_witness :
  parse_root sample_root = Ok (report_of sample_root) /\
  rm_org_name (report_metadata (report_of sample_root)) = Some "google.com" /\
  map (fun row => ar_dkim (row_auth_results row)) (records (report_of sample_root))
    = [None; Some "example.com"; Some "example.com"].
Proof.
  split; [reflexivity|].
  destruct (first_sibling_is_read sample_root (report_of sample_root) eq_refl)
    as (_ & Hfields & _).
  split.
  - rewrite (Hfields ["report_metadata"; "org_name"]
               (fun r => rm_org_name (report_metadata r)) (or_introl eq_refl)).
    reflexivity.
  - reflexivity.
Defined.

(** ** Flattening *)

Lemma append_records_app (rs : list Row) (rows : list FlatRow)
    (metadata : ReportMetadata) (policy : PolicyPublished) :
  append_records rows metadata policy rs
  = rows ++ map (make_row metadata policy) rs.
Proof.
  revert rows. induction rs as [|r rs IH]; intros rows; simpl.
  - now rewrite app_nil_r.
  - now rewrite IH, <- app_assoc.
Qed.

Lemma append_reports_app (reports : list Report) (rows : list FlatRow) :
  append_reports rows reports = rows ++ flat_map rows_of_report reports.
Proof.
  revert rows. induction reports as [|r reports IH]; intros rows; simpl.
  - now rewrite app_nil_r.
  - rewrite IH, append_records_app, <- app_assoc. reflexivity.
Qed.

Lemma flatten_rows_flat_map (reports : list Report) :
  flatten_rows reports = flat_map rows_of_report reports.
Proof. unfold flatten_rows. now rewrite append_reports_app. Qed.

Lemma length_rows_of_report (report : Report) :
  length (rows_of_report report) = record_count report.
Proof. unfold rows_of_report, record_count. apply length_map. Qed.

Lemma length_flatten_rows (reports : list Report) :
  length (flatten_rows reports) = list_sum (map record_count reports).
Proof.
  rewrite flatten_rows_flat_map.
  induction reports as [|r reports IH]; simpl; [reflexivity|].
  now rewrite length_app, length_rows_of_report, IH.
Qed.

Lemma nth_error_flatten_rows (reports : list Report) :
  forall i j report record,
    nth_error reports i = Some report ->
    nth_error (records report) j = Some record ->
    nth_error (flatten_rows reports) (row_index reports i j)
    = Some (make_row (report_metadata report) (policy_published report) record).
Proof.
  rewrite flatten_rows_flat_map. unfold row_index.
  induction reports as [|r reports IH]; intros i j report record Hi Hj.
  - destruct i; discriminate.
  - destruct i as [|i]; simpl in *.
    + injection Hi as ->. rewrite nth_error_app1.
      * unfold rows_of_report. now apply map_nth_error.
      * rewrite length_rows_of_report. apply nth_error_Some. congruence.
    + rewrite nth_error_app2; rewrite length_rows_of_report.
      * replace (record_count r + list_sum (map record_count (firstn i reports)) + j
                 - record_count r)
          with (list_sum (map record_count (firstn i reports)) + j) by lia.
        now apply IH.
      * lia.
Qed.

Lemma flatten_rows_origin (reports : list Report) :
  forall k row,
    nth_error (flatten_rows reports) k = Some row ->
    exists i j report record,
      k = row_index reports i j /\
      nth_error reports i = Some report /\
      nth_error (records report) j = Some record /\
      row = make_row (report_metadata report) (policy_published report) record.
Proof.
  rewrite flatten_rows_flat_map. unfold row_index.
  induction reports as [|r reports IH]; intros k row Hk.
  - destruct k; discriminate.
  - simpl in Hk.
    destruct (Nat.lt_ge_cases k (length (rows_of_report r))) as [Hlt|Hge].
    + rewrite nth_error_app1 in Hk by exact Hlt.
      unfold rows_of_report in Hk.
      rewrite nth_error_map in Hk.
      destruct (nth_error (records r) k) as [record|] eqn:Hrec; [|discriminate].
      injection Hk as <-.
      exists 0, k, r, record. simpl. auto.
    + rewrite nth_error_app2 in Hk by exact Hge.
      destruct (IH _ _ Hk) as (i & j & report & record & Hidx & Hi & Hj & Hrow).
      exists (S i), j, report, record. simpl.
      rewrite length_rows_of_report in *. repeat split; auto. lia.
Qed.

(** C2.  Flattening produces as many rows as the reports have records
    together.  The row for record [j] of report [i] stands after the rows
    of the reports before it and is built from that record and from the
    metadata and the policy of that very report; every output row is such
    a row; and a row built from a metadata and a policy holds their eleven
    values under the eleven report columns. *)
Theorem flatten_one_row_per_record :
  forall reports : list Report,
    length (flatten_rows reports) = list_sum (map record_count reports) /\
    (forall i j report record,
       nth_error reports i = Some report ->
       nth_error (records report) j = Some record ->
       nth_error (flatten_rows reports) (row_index reports i j)
       = Some (make_row (report_metadata report) (policy_published report) record)) /\
    (forall k row,
       nth_error (flatten_rows reports) k = Some row ->
       exists i j report record,
         k = row_index reports i j /\
         nth_error reports i = Some report /\
         nth_error (records report) j = Some record /\
         row = make_row (report_metadata report) (policy_published report) record) /\
    (forall metadata policy record,
       let row := make_row metadata policy record in
       row_get "org_name" row = Some (rm_org_name metadata) /\
       row_get "email" row = Some (rm_email metadata) /\
       row_get "report_id" row = Some (rm_report_id metadata) /\
       row_get "date_range_begin" row = Some (dr_begin (rm_date_range metadata)) /\
       row_get "date_range_end" row = Some (dr_end (rm_date_range metadata)) /\
       row_get "domain" row = Some (pp_domain policy) /\
       row_get "adkim" row = Some (pp_adkim policy) /\
       row_get "aspf" row = Some (pp_aspf policy) /\
       row_get "policy_p" row = Some (pp_p policy) /\
       row_get "policy_sp" row = Some (pp_sp policy) /\
       row_get "policy_pct" row = Some (pp_pct policy)).
Proof.
  intros reports. split; [apply length_flatten_rows|].
  split; [apply nth_error_flatten_rows|].
  split; [apply flatten_rows_origin|].
  intros metadata policy record row. subst row. repeat split.
Qed.

(** ** The CSV *)

Lemma add_columns_fresh :
  fold_left add_column csv_header [] = csv_header.
Proof. reflexivity. Qed.

Lemma add_columns_again :
  fold_left add_column csv_header csv_header = csv_header.
Proof. reflexivity. Qed.

Lemma union_keys_from (rows : list FlatRow) (cols : list string) :
  Forall (fun row => map fst row = csv_header) rows ->
  cols = csv_header ->
  fold_left (fun cols row => fold_left add_column (map fst row) cols) rows cols
  = csv_header.
Proof.
  intros Hrows. revert cols.
  induction Hrows as [|row rows Hrow _ IH]; intros cols ->; simpl.
  - reflexivity.
  - apply IH. rewrite Hrow. apply add_columns_again.
Qed.

Lemma union_keys_header (rows : list FlatRow) :
  rows <> [] ->
  Forall (fun row => map fst row = csv_header) rows ->
  union_keys rows = csv_header.
Proof.
  intros Hne Hrows. destruct rows as [|row rows]; [congruence|].
  inversion Hrows as [|? ? Hrow Hrest]; subst.
  unfold union_keys; simpl. apply union_keys_from; [exact Hrest|].
  rewrite Hrow. apply add_columns_fresh.
Qed.

Lemma flatten_rows_keys (reports : list Report) :
  Forall (fun row => map fst row = csv_header) (flatten_rows reports).
Proof.
  rewrite flatten_rows_flat_map. apply Forall_flat_map.
  apply Forall_forall. intros report _. unfold rows_of_report.
  apply Forall_map, Forall_forall. intros record _. reflexivity.
Qed.

Lemma cells_of_row (metadata : ReportMetadata) (policy : PolicyPublished)
    (record : Row) :
  map (cell (make_row metadata policy record)) csv_header
  = map snd (make_row metadata policy record).
Proof. reflexivity. Qed.

(** With at least one record among the reports, the CSV starts with the
    nineteen column names in their order and goes on with one line of
    nineteen cells per row, a null field as the empty cell. *)
Lemma save_reports_to_csv_with_records (reports : list Report) :
  flatten_rows reports <> [] ->
  save_reports_to_csv reports
  = csv_header :: map (fun row => map na_rep (map snd row)) (flatten_rows reports).
Proof.
  intros Hne. unfold save_reports_to_csv, to_csv, pd_DataFrame; simpl.
  rewrite (union_keys_header _ Hne (flatten_rows_keys reports)).
  f_equal. rewrite map_map. apply map_ext_in. intros row Hin. f_equal.
  rewrite flatten_rows_flat_map in Hin. apply in_flat_map in Hin.
  destruct Hin as (report & _ & Hin). unfold rows_of_report in Hin.
  apply in_map_iff in Hin. destruct Hin as (record & <- & _).
  apply cells_of_row.
Qed.

(** Header or not, the lines after the first are the rows in their order. *)
Lemma csv_lines_follow_rows (reports : list Report) :
  tl (save_reports_to_csv reports)
  = map (fun row => map na_rep (map snd row)) (flatten_rows reports).
Proof.
  destruct (flatten_rows reports) as [|row rows] eqn:E.
  - unfold save_reports_to_csv. rewrite E. reflexivity.
  - rewrite save_reports_to_csv_with_records by (rewrite E; discriminate).
    rewrite E. reflexivity.
Qed.

(** ** Order of the rows *)

Lemma parse_root_records (root : Element) (report : Report) :
  parse_root root = Ok report ->
  Forall2 (fun record row => parse_record record = Ok row)
    (filter (fun c => String.eqb (tag c) "record") (children root))
    (records report).
Proof.
  intros H. apply parse_root_inv in H. subst report. simpl.
  apply Forall2_map_self. intros record. apply parse_record_total.
Qed.

Lemma Forall2_length_sum {A B C : Type} (P : A -> B -> Prop)
    (f : A -> list C) (g : B -> nat) (l : list A) (l' : list B) :
  (forall x y, P x y -> length (f x) = g y) ->
  Forall2 P l l' ->
  list_sum (map (fun x => length (f x)) l) = list_sum (map g l').
Proof.
  intros Hfg H. induction H as [|x y l l' Hxy _ IH]; simpl; [reflexivity|].
  now rewrite (Hfg _ _ Hxy), IH.
Qed.

(** C4.  For reports parsed from a sequence of documents, the rows are the
    rows of the first report, then those of the second, and so on; the
    records of each report are the [record] children of its root in
    document order, each parsed on its own, none dropped or merged, so
    there are as many rows as [record] elements in the documents; and the
    lines of the CSV after its first are these rows, in this order. *)
Theorem rows_follow_reports_then_document_order :
  forall (roots : list Element) (reports : list Report),
    Forall2 (fun root report => parse_root root = Ok report) roots reports ->
    flatten_rows reports
    = concat (map (fun report =>
                     map (make_row (report_metadata report) (policy_published report))
                         (records report))
                  reports) /\
    Forall2
      (fun root report =>
         Forall2 (fun record row => parse_record record = Ok row)
           (filter (fun c => String.eqb (tag c) "record") (children root))
           (records report))
      roots reports /\
    length (flatten_rows reports)
    = list_sum (map (fun root =>
                       length (filter (fun c => String.eqb (tag c) "record")
                                      (children root)))
                    roots) /\
    tl (save_reports_to_csv reports)
    = map (fun row => map na_rep (map snd row)) (flatten_rows reports).
Proof.
  intros roots reports Hparse. split; [|split; [|split]]; [| | |apply csv_lines_follow_rows].
  - rewrite flatten_rows_flat_map, flat_map_concat_map. reflexivity.
  - induction Hparse as [|root report roots reports H _ IH]; constructor; auto.
    now apply parse_root_records.
  - rewrite length_flatten_rows. symmetry.
    apply (Forall2_length_sum (fun root report => parse_root root = Ok report)
             (fun root => filter (fun c => String.eqb (tag c) "record") (children root))
             record_count); [|exact Hparse].
    intros root report H. apply parse_root_records in H.
    unfold record_count. now apply Forall2_length in H.
Qed.

Lemma rows_follow_reports_then_document_order_witness :
  Forall2 (fun root report => parse_root root = Ok report)
    [sample_root; Elem "feedback" None [sample_record]]
    [report_of sample_root; report_of (Elem "feedback" None [sample_record])] /\
  length (flatten_rows
            [report_of sample_root; report_of (Elem "feedback" None [sample_record])])
  = 4.
Proof.
  assert (H : Forall2 (fun root report => parse_root root = Ok report)
                [sample_root; Elem "feedback" None [sample_record]]
                [report_of sample_root;
                 report_of (Elem "feedback" None [sample_record])])
    by (repeat constructor).
  split; [exact H|].
  destruct (rows_follow_reports_then_document_order _ _ H) as (_ & _ & Hlen & _).
  rewrite Hlen. reflexivity.
Defined.

(** C5.  Without any record among the reports, be it no report at all or
    reports whose documents hold no [record] element, the frame has no
    column and the CSV written is a single line without any cell: the
    nineteen column names are not written. *)
Theorem csv_without_records_has_no_header :
  save_reports_to_csv [] = [[]] /\
  (forall metadata policy,
     save_reports_to_csv
       [ {| report_metadata := metadata; policy_published := policy; records := [] |} ]
     = [[]]) /\
  save_reports_to_csv [report_of (Elem "feedback" None [])] = [[]] /\
  hd [] (save_reports_to_csv []) <> csv_header.
Proof. repeat split. discriminate. Qed.

(** ** The name of a decompressed file *)

Lemma prefix_cons (a b : ascii) (s1 s2 : string) :
  String.prefix (String a s1) (String b s2) = Ascii.eqb a b && String.prefix s1 s2.
Proof.
  cbn [String.prefix]. destruct (ascii_dec a b) as [->|Hne].
  - now rewrite Ascii.eqb_refl.
  - apply Ascii.eqb_neq in Hne. now rewrite Hne.
Qed.

Lemma prefix_gz_append (c : ascii) (s : string) :
  String.prefix ".gz" (String c s) = false ->
  String.prefix ".gz" (String c (s ++ ".gz")) = false.
Proof.
  intros H.
  rewrite prefix_cons in *. destruct (Ascii.eqb "." c); [|reflexivity].
  cbn [andb] in *.
  destruct s as [|c1 s1]; [reflexivity|].
  change ((String c1 s1 ++ ".gz")%string) with (String c1 (s1 ++ ".gz")).
  rewrite prefix_cons in *. destruct (Ascii.eqb "g" c1); [|reflexivity].
  cbn [andb] in *.
  destruct s1 as [|c2 s2]; [reflexivity|].
  change ((String c2 s2 ++ ".gz")%string) with (String c2 (s2 ++ ".gz")).
  rewrite prefix_cons in *. destruct (Ascii.eqb "z" c2); [|reflexivity].
  cbn [andb] in *. destruct s2; exact H.
Qed.

Lemma replace_gz_suffix_only (name : string) :
  occurs ".gz" name = false ->
  replace_scan ".gz" EmptyString 0 (name ++ ".gz") = name.
Proof.
  induction name as [|c s IH]; intros Hocc.
  - reflexivity.
  - cbn [occurs] in Hocc. apply orb_false_iff in Hocc.
    destruct Hocc as [Hhere Hrest].
    pose proof (prefix_gz_append _ _ Hhere) as Hpre.
    change ((String c s ++ ".gz")%string) with (String c (s ++ ".gz")) in *.
    cbn [replace_scan]. rewrite Hpre, (IH Hrest). reflexivity.
Qed.

Lemma endswith_append (s suffix : string) : endswith (s ++ suffix) suffix = true.
Proof.
  induction s as [|c s IH].
  - change ((EmptyString ++ suffix)%string) with suffix.
    destruct suffix; cbn [endswith]; now rewrite String.eqb_refl.
  - change ((String c s ++ suffix)%string) with (String c (s ++ suffix)).
    cbn [endswith]. rewrite IH. apply orb_true_r.
Qed.

Lemma length_append (s t : string) :
  String.length (s ++ t) = String.length s + String.length t.
Proof. induction s as [|c s IH]; simpl; [reflexivity | now rewrite IH]. Qed.

Lemma substring_append_left (s t : string) :
  String.substring 0 (String.length s) (s ++ t) = s.
Proof.
  induction s as [|c s IH]; simpl.
  - destruct t; reflexivity.
  - now rewrite IH.
Qed.

(** When [.gz] occurs in the base name only as its suffix, line 30 does
    strip the suffix and nothing else. *)
Lemma gz_output_name_without_inner_gz (name : string) :
  occurs ".gz" name = false ->
  str_replace (name ++ ".gz") ".gz" EmptyString = name /\
  strip_gz_suffix (name ++ ".gz") = name.
Proof.
  intros Hocc. split.
  - now apply replace_gz_suffix_only.
  - unfold strip_gz_suffix. rewrite endswith_append, length_append. simpl.
    replace (String.length name + 3 - 3) with (String.length name) by lia.
    apply substring_append_left.
Qed.

(** C6.  For an archive named after a reporter whose host name contains
    [.gz], line 30 removes that inner [.gz] together with the suffix: the
    file is written under a name that is not the base name without its
    suffix.  The same happens to [a.gz.gz], which becomes [a]. *)
Theorem gz_output_name_loses_inner_gz :
  gz_output_path "out" "in/mail.gzip.org!example.com!1!2.xml.gz"
  = "out/mailip.org!example.com!1!2.xml" /\
  os_path_join "out"
    (strip_gz_suffix (os_path_basename "in/mail.gzip.org!example.com!1!2.xml.gz"))
  = "out/mail.gzip.org!example.com!1!2.xml" /\
  gz_output_path "out" "in/a.gz.gz" = "out/a" /\
  os_path_join "out" (strip_gz_suffix (os_path_basename "in/a.gz.gz")) = "out/a.gz".
Proof. repeat split. Qed.

(** ** Cleanup *)

Lemma node_ind_nested (P : node -> Prop) :
  (forall f, P (File f)) ->
  (forall d es, Forall P es -> P (Dir d es)) ->
  forall n, P n.
Proof.
  intros HF HD. fix IH 1. intros [f|d es].
  - apply HF.
  - apply HD. induction es as [|e es IHes]; constructor; [apply IH | exact IHes].
Qed.

Lemma existsb_eqb_In (x : string) (l : list string) :
  existsb (String.eqb x) l = true <-> In x l.
Proof.
  rewrite existsb_exists. split.
  - intros (y & Hin & Heq). apply String.eqb_eq in Heq. now subst.
  - intros Hin. exists x. split; [exact Hin | apply String.eqb_refl].
Qed.

Lemma distinct_NoDup (l : list string) : distinct l = true <-> NoDup l.
Proof.
  induction l as [|x l IH]; simpl.
  - split; [constructor | reflexivity].
  - rewrite andb_true_iff, negb_true_iff, IH. split.
    + intros [Hx Hl]. constructor; [|exact Hl].
      intros Hin. apply existsb_eqb_In in Hin. congruence.
    + intros H. inversion H as [|? ? Hx Hl]; subst. split; [|exact Hl].
      destruct (existsb (String.eqb x) l) eqn:E; [|reflexivity].
      apply existsb_eqb_In in E. contradiction.
Qed.

Lemma remove_file_at (before after : list node) (f : string) :
  ~ In f (map node_name before) ->
  remove_file f (before ++ File f :: after) = Ok (before ++ after).
Proof.
  induction before as [|[g|d sub] before IH]; simpl; intros Hnot.
  - now rewrite String.eqb_refl.
  - destruct (String.eqb_spec g f) as [->|_]; [tauto|].
    rewrite IH by tauto. reflexivity.
  - destruct (String.eqb_spec d f) as [->|_]; [tauto|].
    rewrite IH by tauto. reflexivity.
Qed.

Lemma in_dir_at (before after sub : list node) (d : string)
    (k : list node -> result (list node)) :
  ~ In d (map node_name before) ->
  in_dir d k (before ++ Dir d sub :: after)
  = bind (k sub) (fun sub' => Ok (before ++ Dir d sub' :: after)).
Proof.
  induction before as [|[g|d' sub0] before IH]; simpl; intros Hnot.
  - now rewrite String.eqb_refl.
  - destruct (String.eqb_spec g d) as [->|_]; [tauto|].
    rewrite IH by tauto. destruct (k sub); reflexivity.
  - destruct (String.eqb_spec d' d) as [->|_]; [tauto|].
    rewrite IH by tauto. destruct (k sub); reflexivity.
Qed.

Lemma os_remove_inside (before after sub : list node) (d : string) (p : path) :
  p <> [] ->
  ~ In d (map node_name before) ->
  os_remove (d :: p) (before ++ Dir d sub :: after)
  = inside before d after (os_remove p sub).
Proof.
  intros Hp Hnot. unfold os_remove, inside.
  destruct p as [|x p]; [congruence|].
  change (remove_at (d :: x :: p)) with (in_dir d (remove_at (x :: p))).
  rewrite in_dir_at by exact Hnot.
  destruct (remove_at (x :: p) sub); reflexivity.
Qed.

Lemma remove_xml_files_inside (files : list string) :
  forall (before after sub : list node) (d : string) (root : path),
    ~ In d (map node_name before) ->
    remove_xml_files (d :: root) files (before ++ Dir d sub :: after)
    = inside before d after (remove_xml_files root files sub).
Proof.
  induction files as [|file files IH]; intros before after sub d root Hnot.
  - reflexivity.
  - simpl. unfold io_bind. destruct (endswith file ".xml").
    + change (d :: root ++ [file]) with (d :: (root ++ [file])).
      rewrite os_remove_inside by (auto; now destruct root).
      unfold inside at 1.
      destruct (os_remove (root ++ [file]) sub) as [[u|e] sub']; simpl.
      * now apply IH.
      * reflexivity.
    + unfold io_ret. now apply IH.
Qed.

Lemma cleanup_loop_inside (w : list (path * list string * list string)) :
  forall (before after sub : list node) (d : string),
    ~ In d (map node_name before) ->
    cleanup_loop (map (below d) w) (before ++ Dir d sub :: after)
    = inside before d after (cleanup_loop w sub).
Proof.
  induction w as [|[[root dirs] files] w IH]; intros before after sub d Hnot.
  - reflexivity.
  - simpl. unfold io_bind.
    rewrite remove_xml_files_inside by exact Hnot. unfold inside at 1.
    destruct (remove_xml_files root files sub) as [[u|e] sub']; simpl.
    + now apply IH.
    + reflexivity.
Qed.

Lemma cleanup_loop_app (w1 w2 : list (path * list string * list string)) (fs : FS) :
  cleanup_loop (w1 ++ w2) fs
  = match cleanup_loop w1 fs with
    | (Ok _, fs') => cleanup_loop w2 fs'
    | (Raise e, fs') => (Raise e, fs')
    end.
Proof.
  revert fs. induction w1 as [|[[root dirs] files] w1 IH]; intros fs.
  - reflexivity.
  - simpl. unfold io_bind.
    destruct (remove_xml_files root files fs) as [[u|e] fs']; [apply IH | reflexivity].
Qed.

Lemma walk_node_below (n : node) :
  forall (d : string) (root : path),
    walk_node (d :: root) n = map (below d) (walk_node root n).
Proof.
  induction n as [f|d' es IH] using node_ind_nested; intros d root.
  - reflexivity.
  - simpl. apply (f_equal (cons _)).
    induction IH as [|e es He _ IHes]; simpl.
    + reflexivity.
    + rewrite map_app, He, IHes. reflexivity.
Qed.

Lemma walk_node_Dir (d : string) (es : list node) :
  walk_node [] (Dir d es) = map (below d) (os_walk es).
Proof.
  simpl. apply (f_equal (cons _)). induction es as [|e es IH]; simpl.
  - reflexivity.
  - rewrite map_app, IH, <- walk_node_below. reflexivity.
Qed.

Lemma app_snoc_assoc {A : Type} (l : list A) (x : A) (l' : list A) :
  l ++ x :: l' = (l ++ [x]) ++ l'.
Proof. now rewrite <- app_assoc. Qed.

Lemma remove_xml_files_here (after : list node) :
  forall before : list node,
    NoDup (map node_name (before ++ after)) ->
    remove_xml_files [] (file_names after) (before ++ after)
    = (Ok tt, before ++ strip_xml_files after).
Proof.
  induction after as [|[f|d sub] after IH]; intros before Hnd.
  - reflexivity.
  - simpl file_names. simpl remove_xml_files. unfold io_bind.
    simpl strip_xml_files. destruct (endswith f ".xml").
    + unfold os_remove. simpl remove_at.
      rewrite remove_file_at.
      * apply IH. rewrite map_app in *. simpl in Hnd.
        now apply NoDup_remove_1 in Hnd.
      * rewrite map_app in Hnd. simpl in Hnd.
        apply NoDup_remove_2 in Hnd. intros Hin. apply Hnd.
        apply in_or_app. now left.
    + unfold io_ret. simpl app.
      rewrite (app_snoc_assoc before (File f) after) in *.
      rewrite (app_snoc_assoc before (File f) (strip_xml_files after)).
      now apply IH.
  - simpl file_names. simpl strip_xml_files. simpl app.
    rewrite (app_snoc_assoc before (Dir d sub) after) in *.
    rewrite (app_snoc_assoc before (Dir d sub) (strip_xml_files after)).
    now apply IH.
Qed.

Lemma strip_xml_names (es : list node) (x : string) :
  In x (map node_name (strip_xml es)) -> In x (map node_name es).
Proof.
  unfold strip_xml. induction es as [|[f|d sub] es IH]; simpl.
  - auto.
  - destruct (endswith f ".xml"); simpl; tauto.
  - tauto.
Qed.

Lemma strip_xml_app (es1 es2 : list node) :
  strip_xml (es1 ++ es2) = strip_xml es1 ++ strip_xml es2.
Proof. apply flat_map_app. Qed.

Lemma cleanup_loop_subdirs (after : list node) :
  forall before : list node,
    NoDup (map node_name (before ++ after)) ->
    Forall cleaned after ->
    cleanup_loop (flat_map (walk_node []) after)
      (strip_xml before ++ strip_xml_files after)
    = (Ok tt, strip_xml before ++ strip_xml after).
Proof.
  induction after as [|[f|d sub] after IH]; intros before Hnd Hcl.
  - reflexivity.
  - inversion Hcl as [|? ? _ Hcl']; subst.
    rewrite (app_snoc_assoc before (File f) after) in Hnd.
    specialize (IH (before ++ [File f]) Hnd Hcl').
    rewrite strip_xml_app, <- !app_assoc in IH.
    unfold strip_xml at 2 4 in IH. simpl in IH. simpl.
    destruct (endswith f ".xml"); simpl in *; exact IH.
  - inversion Hcl as [|? ? Hsub Hcl']; subst.
    change (flat_map (walk_node []) (Dir d sub :: after))
      with (walk_node [] (Dir d sub) ++ flat_map (walk_node []) after).
    rewrite walk_node_Dir, cleanup_loop_app.
    simpl strip_xml_files.
    rewrite cleanup_loop_inside.
    + unfold cleaned in Hsub. rewrite Hsub. unfold inside; simpl fst; simpl snd.
      rewrite (app_snoc_assoc before (Dir d sub) after) in Hnd.
      specialize (IH (before ++ [Dir d sub]) Hnd Hcl').
      rewrite strip_xml_app, <- !app_assoc in IH.
      unfold strip_xml at 2 4 in IH. simpl in IH. fold (strip_xml sub) in IH.
      exact IH.
    + intros Hin. apply strip_xml_names in Hin.
      rewrite map_app in Hnd. simpl in Hnd.
      apply NoDup_remove_2 in Hnd. apply Hnd, in_or_app. now left.
Qed.

Lemma cleanup_node (n : node) : unique_names_node n = true -> cleaned n.
Proof.
  induction n as [f|d es IH] using node_ind_nested; intros Hu.
  - exact I.
  - simpl in Hu. apply andb_true_iff in Hu. destruct Hu as [Hnd Hall].
    apply distinct_NoDup in Hnd.
    unfold cleaned, os_walk.
    change (cleanup_loop (([], dir_names es, file_names es)
                            :: flat_map (walk_node []) es) es)
      with (match remove_xml_files [] (file_names es) ([] ++ es) with
            | (Ok _, fs') => cleanup_loop (flat_map (walk_node []) es) fs'
            | (Raise e, fs') => (Raise e, fs')
            end).
    rewrite (remove_xml_files_here es [] Hnd).
    apply (cleanup_loop_subdirs es [] Hnd).
    rewrite forallb_forall in Hall. rewrite Forall_forall in IH |- *.
    intros n Hin. apply IH; auto.
Qed.

Lemma cleanup_extracted_files_strips (fs : FS) :
  unique_names fs = true ->
  cleanup_extracted_files fs = (Ok tt, strip_xml fs).
Proof.
  intros Hu. apply (cleanup_node (Dir EmptyString fs)). exact Hu.
Qed.

(** What the stripped tree holds. *)

Lemma files_of_strip_xml_node (n : node) :
  forall root : path,
    flat_map (files_of_node root) (strip_xml_node n)
    = filter (fun p => negb (endswith (path_name p) ".xml")) (files_of_node root n).
Proof.
  induction n as [f|d es IH] using node_ind_nested; intros root.
  - simpl. unfold path_name. rewrite last_last.
    destruct (endswith f ".xml"); reflexivity.
  - simpl. rewrite app_nil_r.
    induction IH as [|e es He _ IHes]; simpl.
    + reflexivity.
    + rewrite flat_map_app, filter_app, He, IHes. reflexivity.
Qed.

Lemma all_files_strip_xml (fs : FS) :
  all_files (strip_xml fs)
  = filter (fun p => negb (endswith (path_name p) ".xml")) (all_files fs).
Proof.
  unfold all_files, strip_xml. induction fs as [|n fs IH]; simpl.
  - reflexivity.
  - rewrite flat_map_app, filter_app, files_of_strip_xml_node, IH. reflexivity.
Qed.

Lemma dirs_of_strip_xml_node (n : node) :
  forall root : path,
    flat_map (dirs_of_node root) (strip_xml_node n) = dirs_of_node root n.
Proof.
  induction n as [f|d es IH] using node_ind_nested; intros root.
  - simpl. destruct (endswith f ".xml"); reflexivity.
  - simpl. rewrite app_nil_r. apply (f_equal (cons _)).
    induction IH as [|e es He _ IHes]; simpl.
    + reflexivity.
    + rewrite flat_map_app, He, IHes. reflexivity.
Qed.

Lemma all_dirs_strip_xml (fs : FS) : all_dirs (strip_xml fs) = all_dirs fs.
Proof.
  unfold all_dirs, strip_xml. induction fs as [|n fs IH]; simpl.
  - reflexivity.
  - rewrite flat_map_app, dirs_of_strip_xml_node, IH. reflexivity.
Qed.

(** C7.  However the [try] block ends, by returning or by raising in any
    of its three steps, the script ends the same way after the cleanup has
    run on the working directory the block left: what remains is that
    directory without its [.xml] files.  The files left are exactly the
    files whose name does not end in [.xml], at every depth, and the
    directories are all still there. *)
Theorem cleanup_runs_on_every_exit_path :
  forall (process_dmarc_reports_from_directory : io (list Report))
         (save_reports_to_csv_file : list Report -> io unit)
         (read_csv_and_display_chart : io unit)
         (fs : FS) (outcome : result unit) (fs1 : FS),
    try_block process_dmarc_reports_from_directory save_reports_to_csv_file
      read_csv_and_display_chart fs = (outcome, fs1) ->
    unique_names fs1 = true ->
    script process_dmarc_reports_from_directory save_reports_to_csv_file
      read_csv_and_display_chart fs = (outcome, strip_xml fs1) /\
    all_files (strip_xml fs1)
    = filter (fun p => negb (endswith (path_name p) ".xml")) (all_files fs1) /\
    all_dirs (strip_xml fs1) = all_dirs fs1.
Proof.
  intros process save chart fs outcome fs1 Hbody Hu.
  split; [|split].
  - unfold script, try_finally. rewrite Hbody.
    rewrite (cleanup_extracted_files_strips fs1 Hu). reflexivity.
  - apply all_files_strip_xml.
  - apply all_dirs_strip_xml.
Qed.

Lemma cleanup_runs_on_every_exit_path_witness :
  let extracted :=
    [ File "a.xml"; File "notes.txt";
      Dir "sub" [ File "b.xml"; File "c.csv"; Dir "deep.xml" [ File "d.xml" ] ] ] in
  let process : io (list Report) := fun fs => (Raise ParseError, fs ++ extracted) in
  let save : list Report -> io unit := fun _ => io_ret tt in
  let chart : io unit := io_ret tt in
  try_block process save chart [] = (Raise ParseError, extracted) /\
  unique_names extracted = true /\
  script process save chart []
  = (Raise ParseError,
     [ File "notes.txt"; Dir "sub" [ File "c.csv"; Dir "deep.xml" [] ] ]).
Proof.
  intros extracted process save chart.
  split; [reflexivity|]. split; [reflexivity|].
  exact (proj1 (cleanup_runs_on_every_exit_path process save chart []
                  (Raise ParseError) extracted eq_refl eq_refl)).
Defined.

(** ** The aggregation *)

Lemma compare_as_OT (a b : string) : String.compare a b = String_as_OT.compare a b.
Proof. revert b. induction a as [|c a IH]; intros [|c' b]; simpl; auto. Qed.

Lemma compare_lt_trans (a b c : string) :
  String.compare a b = Lt -> String.compare b c = Lt -> String.compare a c = Lt.
Proof.
  rewrite !compare_as_OT. intros Hab Hbc.
  exact (StrictOrder_Transitive (R := String_as_OT.lt) a b c Hab Hbc).
Qed.

Lemma compare_lt_neq (a b : string) : String.compare a b = Lt -> a <> b.
Proof.
  intros Hlt ->. rewrite compare_as_OT in Hlt.
  exact (StrictOrder_Irreflexive (R := String_as_OT.lt) b Hlt).
Qed.

Lemma compare_gt_lt (a b : string) : String.compare a b = Gt -> String.compare b a = Lt.
Proof. intros H. rewrite String.compare_antisym, H. reflexivity. Qed.

Lemma key_lt_trans (x y z : string * Z) : key_lt x y -> key_lt y z -> key_lt x z.
Proof. unfold key_lt. apply compare_lt_trans. Qed.

(** *** Sixty-four bits *)

Lemma in_int64_iff (z : Z) : in_int64 z = true <-> (- 2 ^ 63 <= z < 2 ^ 63)%Z.
Proof. unfold in_int64. rewrite andb_true_iff, Z.leb_le, Z.ltb_lt. tauto. Qed.

Lemma int64_wrap_small (z : Z) : in_int64 z = true -> int64_wrap z = z.
Proof.
  rewrite in_int64_iff. intros H. unfold int64_wrap.
  rewrite Z.mod_small; lia.
Qed.

Lemma int64_wrap_in_range (z : Z) : in_int64 (int64_wrap z) = true.
Proof.
  apply in_int64_iff. unfold int64_wrap.
  pose proof (Z.mod_pos_bound (z + 2 ^ 63) (2 ^ 64) ltac:(lia)). lia.
Qed.

Lemma int64_wrap_add_l (a b : Z) : int64_wrap (int64_wrap a + b) = int64_wrap (a + b).
Proof.
  unfold int64_wrap. f_equal.
  replace ((a + 2 ^ 63) mod 2 ^ 64 - 2 ^ 63 + b + 2 ^ 63)%Z
    with ((a + 2 ^ 63) mod 2 ^ 64 + b)%Z by lia.
  rewrite Z.add_mod_idemp_l by lia. f_equal. lia.
Qed.

(** *** Grouping *)

Lemma add_to_group_keys (k : string) (v : Z) (groups : list (string * Z)) (x : string * Z) :
  In x (add_to_group k v groups) -> fst x = k \/ exists y, In y groups /\ fst y = fst x.
Proof.
  induction groups as [|[k' v'] groups IH]; simpl.
  - intros [<-|[]]. now left.
  - destruct (String.compare k k') eqn:E; simpl.
    + apply String.compare_eq_iff in E. subst k'.
      intros [<-|Hin]; [now left | right; eauto].
    + intros [<-|[<-|Hin]]; [now left | right; eauto | right; eauto].
    + intros [<-|Hin]; [right; eauto|].
      destruct (IH Hin) as [Hk|(y & Hy & Hfst)]; [now left | right; eauto].
Qed.

Lemma add_to_group_sorted (k : string) (v : Z) (groups : list (string * Z)) :
  StronglySorted key_lt groups -> StronglySorted key_lt (add_to_group k v groups).
Proof.
  induction 1 as [|[k' v'] groups Hs IH Hall]; simpl.
  - repeat constructor.
  - destruct (String.compare k k') eqn:E.
    + apply String.compare_eq_iff in E. subst k'.
      constructor; [exact Hs|]. exact Hall.
    + constructor; [now constructor|]. constructor; [exact E|].
      eapply Forall_impl; [|exact Hall]. intros y Hy.
      unfold key_lt in *; simpl in *. eapply compare_lt_trans; eauto.
    + constructor; [exact IH|]. apply Forall_forall. intros x Hin.
      apply add_to_group_keys in Hin. destruct Hin as [Hk|(y & Hy & Hfst)].
      * unfold key_lt; simpl. rewrite Hk. now apply compare_gt_lt.
      * rewrite Forall_forall in Hall. specialize (Hall y Hy).
        unfold key_lt in *. simpl in *. now rewrite <- Hfst.
Qed.

Lemma add_to_group_in_range (k : string) (v : Z) (groups : list (string * Z)) :
  in_int64 v = true ->
  Forall (fun g => in_int64 (snd g) = true) groups ->
  Forall (fun g => in_int64 (snd g) = true) (add_to_group k v groups).
Proof.
  intros Hv. induction 1 as [|[k' v'] groups Hg Hall IH]; simpl.
  - now repeat constructor.
  - destruct (String.compare k k').
    + constructor; [apply int64_wrap_in_range | exact Hall].
    + constructor; [exact Hv | now constructor].
    + constructor; [exact Hg | exact IH].
Qed.

Lemma group_sum_above (k : string) (groups : list (string * Z)) :
  Forall (fun y => String.compare k (fst y) = Lt) groups -> group_sum k groups = None.
Proof.
  induction 1 as [|[k' v'] groups Hlt _ IH]; simpl; [reflexivity|].
  simpl in Hlt. apply compare_lt_neq in Hlt.
  destruct (String.eqb_spec k' k); [congruence | exact IH].
Qed.

Lemma group_sum_In (k : string) (v : Z) (groups : list (string * Z)) :
  group_sum k groups = Some v -> In (k, v) groups.
Proof.
  induction groups as [|[k' v'] groups IH]; simpl; [discriminate|].
  destruct (String.eqb_spec k' k) as [->|_].
  - intros H. injection H as ->. now left.
  - intros H. right. now apply IH.
Qed.

Lemma group_sum_add_same (k : string) (v : Z) (groups : list (string * Z)) :
  StronglySorted key_lt groups ->
  group_sum k (add_to_group k v groups)
  = Some (match group_sum k groups with
          | Some v' => int64_wrap (v' + v)
          | None => v
          end).
Proof.
  induction 1 as [|[k' v'] groups Hs IH Hall]; simpl.
  - now rewrite String.eqb_refl.
  - destruct (String.compare k k') eqn:E; simpl.
    + apply String.compare_eq_iff in E. subst k'. now rewrite String.eqb_refl.
    + rewrite String.eqb_refl.
      pose proof (compare_lt_neq _ _ E) as Hne.
      destruct (String.eqb_spec k' k); [congruence|].
      rewrite group_sum_above; [reflexivity|].
      eapply Forall_impl; [|exact Hall]. intros y Hy.
      unfold key_lt in Hy; simpl in Hy. eapply compare_lt_trans; eauto.
    + apply compare_gt_lt, compare_lt_neq in E.
      destruct (String.eqb_spec k' k); [congruence | exact IH].
Qed.

Lemma group_sum_add_other (k k0 : string) (v : Z) (groups : list (string * Z)) :
  k0 <> k -> group_sum k (add_to_group k0 v groups) = group_sum k groups.
Proof.
  intros Hne. induction groups as [|[k' v'] groups IH]; simpl.
  - destruct (String.eqb_spec k0 k); [congruence | reflexivity].
  - destruct (String.compare k0 k') eqn:E; simpl.
    + apply String.compare_eq_iff in E. subst k'.
      destruct (String.eqb_spec k0 k); [congruence | reflexivity].
    + destruct (String.eqb_spec k0 k); [congruence | reflexivity].
    + destruct (String.eqb_spec k' k); [reflexivity | exact IH].
Qed.

Lemma group_fold_sorted (df : list (option string * Z)) :
  forall groups,
    StronglySorted key_lt groups ->
    StronglySorted key_lt (fold_left group_step df groups).
Proof.
  induction df as [|[[k|] c] df IH]; intros groups Hs; simpl.
  - exact Hs.
  - apply IH. unfold group_step; simpl. now apply add_to_group_sorted.
  - now apply IH.
Qed.

Lemma group_fold_sum (k : string) (df : list (option string * Z)) :
  forall groups,
    StronglySorted key_lt groups ->
    Forall (fun g => in_int64 (snd g) = true) groups ->
    int64_column df = true ->
    group_sum k (fold_left group_step df groups)
    = match group_sum k groups with
      | Some v => Some (int64_wrap (v + total_count k df))
      | None =>
          if existsb (has_key k) df
          then Some (int64_wrap (total_count k df))
          else None
      end.
Proof.
  induction df as [|[[k0|] c] df IH]; intros groups Hs Hr Hdf.
  - simpl. unfold total_count; simpl.
    destruct (group_sum k groups) as [v|] eqn:E; [|reflexivity].
    apply group_sum_In in E. rewrite Forall_forall in Hr.
    specialize (Hr _ E). simpl in Hr.
    rewrite Z.add_0_r, int64_wrap_small by exact Hr. reflexivity.
  - simpl in Hdf. apply andb_true_iff in Hdf. destruct Hdf as [Hc Hdf].
    simpl fold_left. unfold group_step at 2. simpl fst. simpl snd.
    rewrite IH; [| now apply add_to_group_sorted
                 | now apply add_to_group_in_range | exact Hdf].
    unfold total_count, has_key. simpl.
    destruct (String.eqb_spec k0 k) as [->|Hne].
    + rewrite group_sum_add_same by exact Hs. simpl.
      destruct (group_sum k groups) as [v|].
      * rewrite int64_wrap_add_l. do 2 f_equal. lia.
      * reflexivity.
    + rewrite group_sum_add_other by exact Hne. reflexivity.
  - simpl in Hdf. apply andb_true_iff in Hdf. destruct Hdf as [_ Hdf].
    simpl fold_left. unfold group_step at 2. simpl fst.
    rewrite IH by assumption. reflexivity.
Qed.

Lemma groupby_sum_sorted (df : list (option string * Z)) :
  StronglySorted key_lt (groupby_sum df).
Proof. apply group_fold_sorted. constructor. Qed.

Lemma groupby_sum_total (df : list (option string * Z)) (k : string) :
  int64_column df = true ->
  group_sum k (groupby_sum df)
  = if existsb (has_key k) df
    then Some (int64_wrap (total_count k df))
    else None.
Proof.
  intros Hdf. unfold groupby_sum.
  rewrite group_fold_sum by (constructor || exact Hdf). reflexivity.
Qed.

(** *** Choosing the largest *)

Lemma insert_desc_perm (x : string * Z) (l : list (string * Z)) :
  Permutation (x :: l) (insert_desc x l).
Proof.
  induction l as [|y l IH]; simpl.
  - reflexivity.
  - destruct (snd y <=? snd x)%Z.
    + reflexivity.
    + rewrite perm_swap. now constructor.
Qed.

Lemma sort_desc_perm (l : list (string * Z)) : Permutation l (sort_desc l).
Proof.
  induction l as [|x l IH]; simpl.
  - reflexivity.
  - rewrite <- insert_desc_perm. now constructor.
Qed.

Lemma ranks_before_intro (x y : string * Z) :
  (snd y <= snd x)%Z -> key_lt x y -> ranks_before x y.
Proof.
  intros Hle Hk. unfold ranks_before.
  destruct (Z.eq_dec (snd x) (snd y)); [right; now split | left; lia].
Qed.

Lemma ranks_before_not_smaller (x y : string * Z) : ranks_before x y -> not_smaller x y.
Proof. unfold ranks_before, not_smaller. lia. Qed.

Lemma insert_desc_sorted (x : string * Z) (l : list (string * Z)) :
  StronglySorted ranks_before l ->
  Forall (key_lt x) l ->
  StronglySorted ranks_before (insert_desc x l).
Proof.
  induction 1 as [|y l Hs IH Hall]; intros Hkeys; simpl.
  - repeat constructor.
  - inversion Hkeys as [|? ? Hxy Hkeys']; subst.
    destruct (Z.leb_spec (snd y) (snd x)) as [Hle|Hgt].
    + constructor; [now constructor|].
      constructor.
      * now apply ranks_before_intro.
      * rewrite Forall_forall in *. intros z Hz.
        specialize (Hall z Hz). specialize (Hkeys' z Hz).
        apply ranks_before_intro; [|exact Hkeys'].
        destruct Hall as [Hlt|[Heq _]]; lia.
    + constructor; [now apply IH|].
      rewrite <- insert_desc_perm. constructor; [|exact Hall].
      unfold ranks_before. lia.
Qed.

Lemma sort_desc_sorted (l : list (string * Z)) :
  StronglySorted key_lt l -> StronglySorted ranks_before (sort_desc l).
Proof.
  induction 1 as [|x l Hs IH Hall]; simpl.
  - constructor.
  - apply insert_desc_sorted; [exact IH|].
    now rewrite <- sort_desc_perm.
Qed.

Lemma StronglySorted_app_inv {A : Type} (R : A -> A -> Prop) (l1 l2 : list A) :
  StronglySorted R (l1 ++ l2) ->
  StronglySorted R l1 /\ (forall x y, In x l1 -> In y l2 -> R x y).
Proof.
  induction l1 as [|a l1 IH]; simpl; intros Hs.
  - split; [constructor | intros x y []].
  - inversion Hs as [|? ? Hs' Hall]; subst.
    destruct (IH Hs') as [Hl1 Hcross]. split.
    + constructor; [exact Hl1|]. apply Forall_app in Hall. tauto.
    + intros x y [<-|Hx] Hy; [|now apply Hcross].
      rewrite Forall_forall in Hall. apply Hall, in_or_app. now right.
Qed.

Lemma StronglySorted_impl {A : Type} (R S : A -> A -> Prop) (l : list A) :
  (forall x y, R x y -> S x y) -> StronglySorted R l -> StronglySorted S l.
Proof.
  intros HRS. induction 1 as [|x l Hs IH Hall]; constructor; [exact IH|].
  eapply Forall_impl; [|exact Hall]. intros y. apply HRS.
Qed.

Lemma nlargest_spec (sort_values : list (string * Z) -> list (string * Z))
    (n : nat) (series : list (string * Z)) :
  descending_sort sort_values ->
  StronglySorted key_lt series ->
  length (nlargest sort_values n series) = Nat.min n (length series) /\
  StronglySorted not_smaller (nlargest sort_values n series) /\
  exists rest,
    Permutation series (nlargest sort_values n series ++ rest) /\
    (forall x y, In x (nlargest sort_values n series) -> In y rest -> ranks_before x y) /\
    (length series <= n -> rest = []).
Proof.
  intros Hsort Hs. unfold nlargest.
  destruct (Nat.leb_spec (length series) n) as [Hle|Hgt].
  - destruct (Hsort series) as [Hperm Hdesc].
    rewrite firstn_all2 by now rewrite <- (Permutation_length Hperm).
    split; [|split].
    + rewrite <- (Permutation_length Hperm). lia.
    + exact Hdesc.
    + exists []. rewrite app_nil_r. split; [exact Hperm|].
      split; [intros x y _ []|reflexivity].
  - pose proof (sort_desc_sorted series Hs) as Hsorted.
    pose proof (sort_desc_perm series) as Hperm.
    rewrite <- (firstn_skipn n (sort_desc series)) in Hsorted.
    apply StronglySorted_app_inv in Hsorted. destruct Hsorted as [Htop Hcross].
    split; [|split].
    + rewrite length_firstn, <- (Permutation_length Hperm). reflexivity.
    + eapply StronglySorted_impl; [|exact Htop]. apply ranks_before_not_smaller.
    + exists (skipn n (sort_desc series)). split; [|split].
      * now rewrite firstn_skipn.
      * exact Hcross.
      * intros Hlen. lia.
Qed.

Lemma sort_desc_descending : descending_sort sort_desc.
Proof.
  intros l. split; [apply sort_desc_perm|].
  induction l as [|x l IH]; simpl; [constructor|].
  generalize dependent (sort_desc l). intros s Hs.
  induction Hs as [|y s Hs IHs Hall]; simpl.
  - repeat constructor.
  - destruct (Z.leb_spec (snd y) (snd x)) as [Hle|Hgt].
    + constructor; [now constructor|]. constructor; [exact Hle|].
      eapply Forall_impl; [|exact Hall]. unfold not_smaller. intros z Hz. lia.
    + constructor; [exact IHs|].
      rewrite <- insert_desc_perm. constructor; [|exact Hall].
      unfold not_smaller. lia.
Qed.

(** With more than twenty groups the unstable sort plays no part. *)
Lemma ip_counts_many_groups (sort_values : list (string * Z) -> list (string * Z))
    (df : list (option string * Z)) :
  20 < length (groupby_sum df) ->
  ip_counts sort_values df = firstn 20 (sort_desc (groupby_sum df)).
Proof.
  intros H. unfold ip_counts, nlargest.
  destruct (Nat.leb_spec (length (groupby_sum df)) 20); [lia | reflexivity].
Qed.

Lemma ip_counts_many_groups_sorted
    (sort_values : list (string * Z) -> list (string * Z))
    (df : list (option string * Z)) :
  20 < length (groupby_sum df) ->
  StronglySorted ranks_before (ip_counts sort_values df).
Proof.
  intros H. rewrite (ip_counts_many_groups _ _ H).
  pose proof (sort_desc_sorted _ (groupby_sum_sorted df)) as Hs.
  rewrite <- (firstn_skipn 20 (sort_desc (groupby_sum df))) in Hs.
  apply StronglySorted_app_inv in Hs. exact (proj1 Hs).
Qed.




(** ** ET.parse: the documents it accepts are the well-formed ones *)

Lemma feed_all_app (p : ET.parser) (l1 l2 : list ET.token) :
  ET.feed_all p (l1 ++ l2) = (p' <- ET.feed_all p l1 ;; ET.feed_all p' l2).
Proof.
  revert p. induction l1 as [|t l1 IH]; intros p; simpl; [reflexivity|].
  destruct (ET.feed p t) as [p'|e]; simpl; [apply IH | reflexivity].
Qed.

Lemma feed_raises_ParseError (p : ET.parser) (t : ET.token) (e : exn) :
  ET.feed p t = Raise e -> e = ParseError.
Proof.
  unfold ET.feed. destruct t as [name|name|chars| |].
  - destruct (ET.stack p), (ET.root p); simpl; congruence.
  - destruct (ET.stack p) as [|o outer]; simpl; [congruence|].
    destruct (String.eqb (ET.open_tag o) name); [|congruence].
    destruct outer; discriminate.
  - destruct (ET.stack p); simpl; [|discriminate].
    destruct (ET.whitespace chars); congruence.
  - discriminate.
  - congruence.
Qed.

Lemma feed_all_raises_ParseError (l : list ET.token) :
  forall (p : ET.parser) (e : exn),
    ET.feed_all p l = Raise e -> e = ParseError.
Proof.
  induction l as [|t l IH]; intros p e; simpl; [discriminate|].
  destruct (ET.feed p t) as [p'|e'] eqn:E; simpl.
  - apply IH.
  - intros H. injection H as <-. exact (feed_raises_ParseError _ _ _ E).
Qed.

Lemma close_raises_ParseError (p : ET.parser) (e : exn) :
  ET.close p = Raise e -> e = ParseError.
Proof. destruct p as [[|o outer] [r|]]; unfold ET.close; simpl; congruence. Qed.

Lemma XML_raises_ParseError (l : list ET.token) (e : exn) :
  ET.XML l = Raise e -> e = ParseError.
Proof.
  unfold ET.XML. destruct (ET.feed_all ET.XMLParser l) as [p|e'] eqn:E; simpl.
  - apply close_raises_ParseError.
  - intros H. injection H as <-. exact (feed_all_raises_ParseError _ _ _ E).
Qed.

Lemma add_data_tag (chars : string) (o : ET.open_element) :
  ET.open_tag (ET.add_data chars o) = ET.open_tag o.
Proof. unfold ET.add_data. destruct (ET.open_children o); reflexivity. Qed.

Lemma feed_blank (r : option Element) (l : list ET.token) :
  ET.blank l = true ->
  ET.feed_all {| ET.stack := []; ET.root := r |} l
  = Ok {| ET.stack := []; ET.root := r |}.
Proof.
  induction l as [|t l IH]; simpl; [reflexivity|].
  intros H. apply andb_prop in H. destruct H as [Ht Hl].
  destruct t as [name|name|chars| |]; try discriminate; simpl in *.
  - rewrite Ht. simpl. exact (IH Hl).
  - exact (IH Hl).
Qed.

Lemma feed_content (l : list ET.token) :
  ET.content l ->
  forall (o : ET.open_element) (outer : list ET.open_element) (r : option Element),
  exists o',
    ET.feed_all {| ET.stack := o :: outer; ET.root := r |} l
    = Ok {| ET.stack := o' :: outer; ET.root := r |} /\
    ET.open_tag o' = ET.open_tag o.
Proof.
  induction 1 as [|chars l _ IH|l _ IH|name inner l _ IHinner _ IHl];
    intros o outer r.
  - exists o. split; reflexivity.
  - destruct (IH (ET.add_data chars o) outer r) as (o' & Hrun & Htag).
    exists o'. split; [exact Hrun|]. now rewrite Htag, add_data_tag.
  - exact (IH o outer r).
  - destruct (IHinner (ET.new_element name) (o :: outer) r) as (o1 & Hrun1 & Htag1).
    destruct (IHl (ET.append (ET.close_element o1) o) outer r) as (o' & Hrun & Htag).
    exists o'. split; [|exact Htag].
    change (ET.feed_all {| ET.stack := o :: outer; ET.root := r |}
              (ET.Start name :: inner ++ ET.End_ name :: l))
      with (ET.feed_all
              {| ET.stack := ET.new_element name :: o :: outer; ET.root := r |}
              (inner ++ ET.End_ name :: l)).
    rewrite feed_all_app, Hrun1. simpl.
    simpl in Htag1. rewrite Htag1, String.eqb_refl. simpl. exact Hrun.
Qed.

Lemma XML_of_document (name : string) (l : list ET.token) :
  ET.document name l ->
  exists text children, ET.XML l = Ok (Elem name text children).
Proof.
  intros (before & inner & after & -> & Hbefore & Hinner & Hafter).
  destruct (feed_content inner Hinner (ET.new_element name) [] None)
    as (o' & Hrun & Htag).
  exists (ET.open_text o'), (ET.open_children o').
  unfold ET.XML, ET.XMLParser.
  rewrite feed_all_app, (feed_blank None before Hbefore). simpl.
  rewrite feed_all_app, Hrun. simpl.
  simpl in Htag. rewrite Htag, String.eqb_refl. simpl.
  rewrite (feed_blank _ after Hafter). simpl.
  unfold ET.close_element. now rewrite Htag.
Qed.

Lemma feed_after_root (l : list ET.token) :
  forall (r : Element) (p' : ET.parser),
    ET.feed_all {| ET.stack := []; ET.root := Some r |} l = Ok p' ->
    ET.blank l = true.
Proof.
  induction l as [|t l IH]; intros r p'; simpl; [reflexivity|].
  destruct t as [name|name|chars| |]; simpl; try discriminate.
  - destruct (ET.whitespace chars); simpl; [|discriminate]. apply IH.
  - apply IH.
Qed.

Lemma closing_after_item (t : ET.token) (name : string) (names : list string)
    (l after : list ET.token) :
  (forall inner, ET.content inner -> ET.content (t :: inner)) ->
  ET.closing (name :: names) l after ->
  ET.closing (name :: names) (t :: l) after.
Proof.
  intros Ht H. inversion H as [|? ? inner l2 ? Hinner Hrest]; subst.
  change (t :: inner ++ ET.End_ name :: l2)
    with ((t :: inner) ++ ET.End_ name :: l2).
  constructor; [apply Ht, Hinner | exact Hrest].
Qed.

Lemma closing_after_element (name' name : string) (names : list string)
    (l after : list ET.token) :
  ET.closing (name' :: name :: names) l after ->
  ET.closing (name :: names) (ET.Start name' :: l) after.
Proof.
  intros H. inversion H as [|? ? inner l2 ? Hinner Hrest]; subst.
  inversion Hrest as [|? ? inner2 l3 ? Hinner2 Hrest2]; subst.
  replace (ET.Start name' :: inner ++ ET.End_ name' :: inner2 ++ ET.End_ name :: l3)
    with ((ET.Start name' :: inner ++ ET.End_ name' :: inner2) ++ ET.End_ name :: l3).
  - constructor; [now constructor | exact Hrest2].
  - simpl. rewrite <- app_assoc. reflexivity.
Qed.

Lemma feed_closing (l : list ET.token) :
  forall (o : ET.open_element) (outer : list ET.open_element)
         (r : option Element) (p' : ET.parser),
    ET.feed_all {| ET.stack := o :: outer; ET.root := r |} l = Ok p' ->
    ET.stack p' = [] ->
    exists after,
      ET.closing (map ET.open_tag (o :: outer)) l after /\
      ET.blank after = true.
Proof.
  induction l as [|t l IH]; intros o outer r p' Hrun Hend.
  - simpl in Hrun. injection Hrun as <-. discriminate.
  - destruct t as [name|name|chars| |].
    + destruct (IH (ET.new_element name) (o :: outer) r p' Hrun Hend)
        as (after & Hclosing & Hafter).
      exists after. split; [|exact Hafter].
      now apply closing_after_element.
    + simpl in Hrun.
      destruct (String.eqb_spec (ET.open_tag o) name) as [<-|]; [|discriminate].
      destruct outer as [|parent outer']; simpl in Hrun.
      * exists l. split; [|exact (feed_after_root _ _ _ Hrun)].
        apply (ET.closing_cons (ET.open_tag o) [] [] l l);
          [constructor | constructor].
      * destruct (IH _ _ _ _ Hrun Hend) as (after & Hclosing & Hafter).
        exists after. split; [|exact Hafter].
        apply (ET.closing_cons (ET.open_tag o) _ [] l after);
          [constructor | exact Hclosing].
    + simpl in Hrun.
      destruct (IH _ _ _ _ Hrun Hend) as (after & Hclosing & Hafter).
      exists after. split; [|exact Hafter].
      simpl in Hclosing. rewrite add_data_tag in Hclosing.
      apply closing_after_item; [intros; now constructor | exact Hclosing].
    + simpl in Hrun.
      destruct (IH _ _ _ _ Hrun Hend) as (after & Hclosing & Hafter).
      exists after. split; [|exact Hafter].
      apply closing_after_item; [intros; now constructor | exact Hclosing].
    + discriminate.
Qed.

Lemma feed_document (l : list ET.token) :
  forall p' : ET.parser,
    ET.feed_all ET.XMLParser l = Ok p' ->
    ET.stack p' = [] -> ET.root p' <> None ->
    ET.well_formed l.
Proof.
  induction l as [|t l IH]; intros p' Hrun Hend Hroot.
  - simpl in Hrun. injection Hrun as <-. now contradiction Hroot.
  - destruct t as [name|name|chars| |]; try discriminate.
    + destruct (feed_closing l (ET.new_element name) [] None p' Hrun Hend)
        as (after & Hclosing & Hafter).
      inversion Hclosing as [|? ? inner l2 ? Hinner Hrest]; subst.
      inversion Hrest; subst.
      exists name, [], inner, after. repeat split; assumption.
    + simpl in Hrun. unfold ET.XMLParser in Hrun. simpl in Hrun.
      destruct (ET.whitespace chars) eqn:Hws; [|discriminate].
      destruct (IH p' Hrun Hend Hroot)
        as (name & before & inner & after & -> & Hbefore & Hinner & Hafter).
      exists name, (ET.Data chars :: before), inner, after.
      repeat split; try assumption. simpl. now rewrite Hws.
    + destruct (IH p' Hrun Hend Hroot)
        as (name & before & inner & after & -> & Hbefore & Hinner & Hafter).
      exists name, (ET.Misc :: before), inner, after.
      repeat split; assumption.
Qed.

Lemma XML_well_formed (l : list ET.token) (r : Element) :
  ET.XML l = Ok r -> ET.well_formed l.
Proof.
  unfold ET.XML. destruct (ET.feed_all ET.XMLParser l) as [p|e] eqn:E; simpl;
    [|discriminate].
  intros Hclose. apply (feed_document l p E).
  - destruct p as [[|o outer] root]; [reflexivity|].
    unfold ET.close in Hclose. simpl in Hclose. destruct root; discriminate.
  - destruct p as [[|o outer] [root|]]; unfold ET.close in Hclose;
      simpl in *; congruence.
Qed.

Lemma XML_document_iff (name : string) (l : list ET.token) :
  ET.document name l <->
  exists text children, ET.XML l = Ok (Elem name text children).
Proof.
  split; [apply XML_of_document|].
  intros (text & children & Hxml).
  destruct (XML_well_formed _ _ Hxml) as (name' & Hdoc).
  destruct (XML_of_document _ _ Hdoc) as (text' & children' & Hxml').
  rewrite Hxml in Hxml'. injection Hxml' as -> _ _. exact Hdoc.
Qed.

Lemma XML_ParseError_iff (l : list ET.token) :
  ET.XML l = Raise ParseError <-> ~ ET.well_formed l.
Proof.
  split.
  - intros Hraise (name & Hdoc).
    destruct (XML_of_document _ _ Hdoc) as (text & children & Hxml). congruence.
  - intros Hnot. destruct (ET.XML l) as [r|e] eqn:E.
    + contradiction Hnot. exact (XML_well_formed _ _ E).
    + now rewrite (XML_raises_ParseError _ _ E).
Qed.

Lemma document_has_start (name : string) (l : list ET.token) :
  ET.document name l -> existsb ET.is_start l = true.
Proof.
  intros (before & inner & after & -> & _).
  rewrite existsb_app. simpl. apply orb_true_r.
Qed.

Example XML_of_a_report :
  ET.XML sample_tokens
  = Ok (Elem "feedback" (Some " ")
          [ Elem "report_metadata" None
              [ Elem "org_name" (Some "google.com") []; Elem "email" None [] ];
            Elem "record" None
              [ Elem "row" None
                  [ Elem "source_ip" (Some "192.0.2.1") [];
                    Elem "count" (Some "2") [] ] ] ]).
Proof. reflexivity. Qed.

Example XML_of_an_unclosed_element :
  ET.XML unclosed_tokens = Raise ParseError.
Proof. reflexivity. Qed.

Example XML_of_an_empty_file : ET.XML [] = Raise ParseError.
Proof. reflexivity. Qed.

Example XML_of_two_roots :
  ET.XML [ ET.Start "a"; ET.End_ "a"; ET.Start "b"; ET.End_ "b" ]
  = Raise ParseError.
Proof. reflexivity. Qed.

Example XML_of_text_outside_the_root :
  ET.XML [ ET.Start "a"; ET.End_ "a"; ET.Data "x" ] = Raise ParseError.
Proof. reflexivity. Qed.




(** * Further properties of the script *)

(** ** Suffixes *)

Lemma endswith_zip_not_gz (s : string) :
  endswith s ".zip" = true -> endswith s ".gz" = false.
Proof.
  induction s as [|c s IH]; cbn [endswith].
  - discriminate.
  - rewrite orb_true_iff, orb_false_iff. intros [Heq|Htail].
    + apply String.eqb_eq in Heq. injection Heq as -> ->. split; reflexivity.
    + split; [|now apply IH].
      destruct (String.eqb_spec (String c s) ".gz") as [Heq|]; [|reflexivity].
      injection Heq as _ ->. discriminate.
Qed.

Lemma path_string_snoc (top : string) (root : path) (file : string) :
  path_string top (root ++ [file]) = os_path_join (path_string top root) file.
Proof. unfold path_string. now rewrite fold_left_app. Qed.

Lemma Permutation_filter {A : Type} (f : A -> bool) (l l' : list A) :
  Permutation l l' -> Permutation (filter f l) (filter f l').
Proof.
  induction 1 as [|x l l' _ IH|x y l|l l' l'' _ IH1 _ IH2]; simpl.
  - constructor.
  - destruct (f x); [now constructor | exact IH].
  - destruct (f x), (f y); try reflexivity. apply perm_swap.
  - now transitivity (filter f l').
Qed.

(** ** The walk meets every file once *)

Lemma walk_entries_app (w1 w2 : list (path * list string * list string)) :
  walk_entries (w1 ++ w2) = walk_entries w1 ++ walk_entries w2.
Proof. apply flat_map_app. Qed.

Lemma walk_entries_files (es : list node) (root : path) :
  Forall (fun n =>
            forall root,
              Permutation (map entry_path (walk_entries (walk_node root n)))
                          (match n with
                           | File _ => []
                           | Dir _ _ => files_of_node root n
                           end)) es ->
  Permutation
    (map entry_path (map (pair root) (file_names es))
       ++ map entry_path (walk_entries (flat_map (walk_node root) es)))
    (flat_map (files_of_node root) es).
Proof.
  induction 1 as [|[f|d sub] es Hn _ IH].
  - constructor.
  - simpl. apply perm_skip. exact IH.
  - change (file_names (Dir d sub :: es)) with (file_names es).
    change (flat_map (walk_node root) (Dir d sub :: es))
      with (walk_node root (Dir d sub) ++ flat_map (walk_node root) es).
    change (flat_map (files_of_node root) (Dir d sub :: es))
      with (files_of_node root (Dir d sub) ++ flat_map (files_of_node root) es).
    rewrite walk_entries_app, map_app.
    rewrite Permutation_app_swap_app.
    apply Permutation_app; [apply Hn | exact IH].
Qed.

Lemma walk_node_files (n : node) :
  forall root,
    Permutation (map entry_path (walk_entries (walk_node root n)))
                (match n with
                 | File _ => []
                 | Dir _ _ => files_of_node root n
                 end).
Proof.
  induction n as [f|d es IH] using node_ind_nested; intros root.
  - constructor.
  - change (walk_node root (Dir d es))
      with ((root ++ [d], dir_names es, file_names es)
              :: flat_map (walk_node (root ++ [d])) es).
    change (walk_entries ((root ++ [d], dir_names es, file_names es)
                            :: flat_map (walk_node (root ++ [d])) es))
      with (map (pair (root ++ [d])) (file_names es)
              ++ walk_entries (flat_map (walk_node (root ++ [d])) es)).
    rewrite map_app. now apply walk_entries_files.
Qed.

Lemma os_walk_files (fs : FS) :
  Permutation (map entry_path (walk_entries (os_walk fs))) (all_files fs).
Proof.
  unfold os_walk, all_files.
  change (walk_entries (([], dir_names fs, file_names fs)
                          :: flat_map (walk_node []) fs))
    with (map (pair []) (file_names fs)
            ++ walk_entries (flat_map (walk_node []) fs)).
  rewrite map_app. apply walk_entries_files.
  apply Forall_forall. intros n _. apply walk_node_files.
Qed.

Lemma filter_suffix_entries (suffix : string) (l : list (path * string)) :
  filter (fun p => endswith (path_name p) suffix) (map entry_path l)
  = map entry_path (filter (has_suffix suffix) l).
Proof.
  induction l as [|[root file] l IH]; [reflexivity|].
  cbn [map filter].
  assert (E : path_name (entry_path (root, file)) = file)
    by (unfold path_name, entry_path; simpl; apply last_last).
  rewrite E. unfold has_suffix at 1. cbn [snd].
  destruct (endswith file suffix); cbn [map]; now rewrite IH.
Qed.

(** ** Locating the archives *)

Lemma classify_files_filter (root : string) (files : list string) :
  forall zip_files gz_files,
    classify_files root files (zip_files, gz_files)
    = (zip_files
         ++ map (os_path_join root) (filter (fun f => endswith f ".zip") files),
       gz_files
         ++ map (os_path_join root) (filter (fun f => endswith f ".gz") files)).
Proof.
  induction files as [|file files IH]; intros zip_files gz_files; simpl.
  - now rewrite !app_nil_r.
  - destruct (endswith file ".zip") eqn:Ez.
    + rewrite (endswith_zip_not_gz _ Ez), IH. simpl. now rewrite <- app_assoc.
    + destruct (endswith file ".gz"); rewrite IH; simpl;
        [now rewrite <- app_assoc | reflexivity].
Qed.

Lemma locate_loop_filter (directory : string)
    (w : list (path * list string * list string)) :
  forall zip_files gz_files,
    locate_loop directory w (zip_files, gz_files)
    = (zip_files
         ++ map (fun rf => path_string directory (entry_path rf))
                (filter (has_suffix ".zip") (walk_entries w)),
       gz_files
         ++ map (fun rf => path_string directory (entry_path rf))
                (filter (has_suffix ".gz") (walk_entries w))).
Proof.
  induction w as [|[[root dirs] files] w IH]; intros zip_files gz_files.
  - simpl. now rewrite !app_nil_r.
  - cbn [locate_loop]. rewrite classify_files_filter, IH.
    change (walk_entries ((root, dirs, files) :: w))
      with (map (pair root) files ++ walk_entries w).
    rewrite !filter_app, !map_app, <- !app_assoc.
    assert (Hmap : forall suffix,
               map (fun rf => path_string directory (entry_path rf))
                   (filter (has_suffix suffix) (map (pair root) files))
               = map (os_path_join (path_string directory root))
                     (filter (fun f => endswith f suffix) files)).
    { intros suffix. clear. induction files as [|f files IHf]; simpl; [reflexivity|].
      unfold has_suffix at 1; simpl. destruct (endswith f suffix); simpl.
      - unfold entry_path at 1; simpl. now rewrite path_string_snoc, IHf.
      - exact IHf. }
    now rewrite !Hmap.
Qed.

(** X1.  The two lists of [process_dmarc_reports_from_directory] hold, each
    once, the files of the directory tree whose name ends in [.zip], and
    those whose name ends in [.gz], whatever their depth and nothing else,
    each under the path joined from the directory down. *)
Theorem locate_archives_by_suffix :
  forall (directory : string) (entries : FS),
    Permutation (fst (locate_archives directory entries))
      (map (path_string directory)
           (filter (fun p => endswith (path_name p) ".zip") (all_files entries))) /\
    Permutation (snd (locate_archives directory entries))
      (map (path_string directory)
           (filter (fun p => endswith (path_name p) ".gz") (all_files entries))).
Proof.
  intros directory entries. unfold locate_archives.
  rewrite locate_loop_filter. simpl fst. simpl snd.
  assert (H : forall suffix,
             Permutation
               (map (fun rf => path_string directory (entry_path rf))
                    (filter (has_suffix suffix) (walk_entries (os_walk entries))))
               (map (path_string directory)
                    (filter (fun p => endswith (path_name p) suffix)
                            (all_files entries)))).
  { intros suffix.
    rewrite <- (map_map entry_path (path_string directory)).
    apply Permutation_map. rewrite <- filter_suffix_entries.
    apply Permutation_filter, os_walk_files. }
  split; apply H.
Qed.

(** ** The extraction loops *)

Lemma decompress_zip_files_app (extractall : string -> string -> io unit)
    (output_dir : string) (l1 l2 : list string) (fs : FS) :
  decompress_zip_files extractall (l1 ++ l2) output_dir fs
  = match decompress_zip_files extractall l1 output_dir fs with
    | (Ok _, fs') => decompress_zip_files extractall l2 output_dir fs'
    | (Raise e, fs') => (Raise e, fs')
    end.
Proof.
  revert fs. induction l1 as [|z l1 IH]; intros fs; simpl.
  - reflexivity.
  - unfold io_bind. destruct (extractall z output_dir fs) as [[u|e] fs'].
    + apply IH.
    + reflexivity.
Qed.

(** X2.  [decompress_zip_files] stops at the first archive whose
    extraction raises: the exception is passed on, the working directory
    is left as that extraction left it, and the archives after it are not
    opened. *)
Theorem decompress_zip_files_stops_at_first_failure :
  forall (extractall : string -> string -> io unit)
         (done_ : list string) (bad : string) (rest : list string)
         (output_dir : string) (fs fs0 fs1 : FS) (e : exn),
    decompress_zip_files extractall done_ output_dir fs = (Ok tt, fs0) ->
    extractall bad output_dir fs0 = (Raise e, fs1) ->
    decompress_zip_files extractall (done_ ++ bad :: rest) output_dir fs
    = (Raise e, fs1).
Proof.
  intros extractall done_ bad rest output_dir fs fs0 fs1 e Hdone Hbad.
  rewrite decompress_zip_files_app, Hdone. simpl. unfold io_bind.
  rewrite Hbad. reflexivity.
Qed.

Lemma decompress_zip_files_stops_at_first_failure_witness :
  let extractall : string -> string -> io unit :=
    fun zip_file _ fs =>
      if String.eqb zip_file "b.zip"
      then (Raise (OtherError "BadZipFile"), fs ++ [File "half.xml"])
      else (Ok tt, fs ++ [File "r.xml"]) in
  decompress_zip_files extractall ["a.zip"] "out" [] = (Ok tt, [File "r.xml"]) /\
  extractall "b.zip" "out" [File "r.xml"]
  = (Raise (OtherError "BadZipFile"), [File "r.xml"; File "half.xml"]) /\
  decompress_zip_files extractall (["a.zip"] ++ "b.zip" :: ["c.zip"]) "out" []
  = (Raise (OtherError "BadZipFile"), [File "r.xml"; File "half.xml"]).
Proof.
  intros extractall. split; [reflexivity|]. split; [reflexivity|].
  exact (decompress_zip_files_stops_at_first_failure extractall
           ["a.zip"] "b.zip" ["c.zip"] "out" [] [File "r.xml"]
           [File "r.xml"; File "half.xml"] (OtherError "BadZipFile")
           eq_refl eq_refl).
Defined.

Lemma decompress_gz_files_io_app (gunzip_to : string -> string -> io unit)
    (output_dir : string) (l1 l2 : list string) (fs : FS) :
  decompress_gz_files_io gunzip_to (l1 ++ l2) output_dir fs
  = match decompress_gz_files_io gunzip_to l1 output_dir fs with
    | (Ok _, fs') => decompress_gz_files_io gunzip_to l2 output_dir fs'
    | (Raise e, fs') => (Raise e, fs')
    end.
Proof.
  revert fs. induction l1 as [|g l1 IH]; intros fs; simpl.
  - reflexivity.
  - unfold io_bind.
    destruct (gunzip_to g (gz_output_path output_dir g) fs) as [[u|e] fs'].
    + apply IH.
    + reflexivity.
Qed.



(** ** Parsing the extracted files *)

Lemma parse_each_app (ET_parse : string -> result Element) (l1 l2 : list string) :
  parse_each ET_parse (l1 ++ l2)
  = bind (parse_each ET_parse l1)
      (fun r1 => bind (parse_each ET_parse l2) (fun r2 => Ok (r1 ++ r2))).
Proof.
  induction l1 as [|f l1 IH]; simpl.
  - destruct (parse_each ET_parse l2); reflexivity.
  - destruct (parse_dmarc_xml ET_parse f) as [r|e]; simpl; [|reflexivity].
    rewrite IH. destruct (parse_each ET_parse l1) as [r1|e]; simpl; [|reflexivity].
    destruct (parse_each ET_parse l2); reflexivity.
Qed.

Lemma parse_files_each (ET_parse : string -> result Element) (root : string)
    (files : list string) :
  forall all_reports,
    parse_files ET_parse root files all_reports
    = bind (parse_each ET_parse
              (map (os_path_join root) (filter (fun f => endswith f ".xml") files)))
        (fun reports => Ok (all_reports ++ reports)).
Proof.
  induction files as [|file files IH]; intros all_reports; simpl.
  - now rewrite app_nil_r.
  - destruct (endswith file ".xml"); simpl; [|apply IH].
    destruct (parse_dmarc_xml ET_parse (os_path_join root file)) as [r|e];
      simpl; [|reflexivity].
    rewrite IH.
    destruct (parse_each ET_parse _) as [rs|e]; simpl; [|reflexivity].
    now rewrite <- app_assoc.
Qed.

Lemma parse_walk_each (ET_parse : string -> result Element) (output_dir : string)
    (w : list (path * list string * list string)) :
  forall all_reports,
    parse_walk ET_parse output_dir w all_reports
    = bind (parse_each ET_parse
              (map (fun rf => path_string output_dir (entry_path rf))
                   (filter (has_suffix ".xml") (walk_entries w))))
        (fun reports => Ok (all_reports ++ reports)).
Proof.
  induction w as [|[[root dirs] files] w IH]; intros all_reports.
  - simpl. now rewrite app_nil_r.
  - cbn [parse_walk]. rewrite parse_files_each.
    change (walk_entries ((root, dirs, files) :: w))
      with (map (pair root) files ++ walk_entries w).
    rewrite filter_app, map_app, parse_each_app.
    assert (Hmap : map (fun rf => path_string output_dir (entry_path rf))
                     (filter (has_suffix ".xml") (map (pair root) files))
                   = map (os_path_join (path_string output_dir root))
                       (filter (fun f => endswith f ".xml") files)).
    { clear. induction files as [|f files IHf]; simpl; [reflexivity|].
      unfold has_suffix at 1; simpl. destruct (endswith f ".xml"); simpl.
      - unfold entry_path at 1; simpl. now rewrite path_string_snoc, IHf.
      - exact IHf. }
    rewrite Hmap.
    destruct (parse_each ET_parse
                (map (os_path_join (path_string output_dir root))
                     (filter (fun f => endswith f ".xml") files))) as [r1|e];
      simpl; [|reflexivity].
    rewrite IH.
    destruct (parse_each ET_parse _) as [r2|e]; simpl; [|reflexivity].
    now rewrite <- app_assoc.
Qed.

Lemma parse_each_all (ET_parse : string -> result Element)
    (xml_files : list string) (roots : list Element) :
  Forall2 (fun f root => ET_parse f = Ok root) xml_files roots ->
  parse_each ET_parse xml_files = Ok (map report_of roots).
Proof.
  induction 1 as [|f root xml_files roots Hf _ IH]; simpl.
  - reflexivity.
  - rewrite (parse_dmarc_xml_total _ _ _ Hf). simpl. rewrite IH. reflexivity.
Qed.

Lemma parse_each_first_failure (ET_parse : string -> result Element)
    (parsed : list string) (bad : string) (rest : list string)
    (roots : list Element) (e : exn) :
  Forall2 (fun f root => ET_parse f = Ok root) parsed roots ->
  ET_parse bad = Raise e ->
  parse_each ET_parse (parsed ++ bad :: rest) = Raise e.
Proof.
  intros Hparsed Hbad. rewrite parse_each_app, (parse_each_all _ _ _ Hparsed).
  simpl. unfold parse_dmarc_xml. rewrite Hbad. reflexivity.
Qed.

Lemma xml_files_of_all_files (output_dir : string) (fs : FS) :
  Permutation (xml_files_of output_dir fs)
    (map (path_string output_dir)
         (filter (fun p => endswith (path_name p) ".xml") (all_files fs))).
Proof.
  unfold xml_files_of.
  rewrite <- (map_map entry_path (path_string output_dir)).
  apply Permutation_map. rewrite <- filter_suffix_entries.
  apply Permutation_filter, os_walk_files.
Qed.

Lemma process_after_extraction (ET_parse : string -> result Element)
    (extractall gunzip_to : string -> string -> io unit)
    (directory : string) (entries : FS) (output_dir : string) (fs fs0 fs1 : FS) :
  decompress_zip_files extractall (fst (locate_archives directory entries))
    output_dir fs = (Ok tt, fs0) ->
  decompress_gz_files_io gunzip_to (snd (locate_archives directory entries))
    output_dir fs0 = (Ok tt, fs1) ->
  process_dmarc_reports_from_directory ET_parse extractall gunzip_to
    directory entries output_dir fs
  = (parse_each ET_parse (xml_files_of output_dir fs1), fs1).
Proof.
  intros Hzip Hgz. unfold process_dmarc_reports_from_directory.
  destruct (locate_archives directory entries) as [zip_files gz_files].
  simpl in Hzip, Hgz. unfold io_bind. rewrite Hzip, Hgz.
  rewrite parse_walk_each. unfold xml_files_of.
  destruct (parse_each ET_parse _); reflexivity.
Qed.

(** X5.  When both extraction loops return, the function returns one
    report per file of the working directory whose name ends in [.xml], at
    any depth and whether extracted now or there before, provided each of
    them parses; the reports are those of the files in the order the walk
    meets them, and the working directory is as extraction left it. *)
Theorem process_returns_one_report_per_xml_file :
  forall (ET_parse : string -> result Element)
         (extractall gunzip_to : string -> string -> io unit)
         (directory : string) (entries : FS) (output_dir : string)
         (fs fs0 fs1 : FS) (roots : list Element),
    decompress_zip_files extractall (fst (locate_archives directory entries))
      output_dir fs = (Ok tt, fs0) ->
    decompress_gz_files_io gunzip_to (snd (locate_archives directory entries))
      output_dir fs0 = (Ok tt, fs1) ->
    Forall2 (fun f root => ET_parse f = Ok root) (xml_files_of output_dir fs1) roots ->
    process_dmarc_reports_from_directory ET_parse extractall gunzip_to
      directory entries output_dir fs
    = (Ok (map report_of roots), fs1) /\
    length (map report_of roots)
    = length (filter (fun p => endswith (path_name p) ".xml") (all_files fs1)).
Proof.
  intros ET_parse extractall gunzip_to directory entries output_dir
         fs fs0 fs1 roots Hzip Hgz Hroots.
  split.
  - rewrite (process_after_extraction _ _ _ _ _ _ _ _ _ Hzip Hgz).
    now rewrite (parse_each_all _ _ _ Hroots).
  - rewrite length_map, <- (Forall2_length Hroots).
    rewrite (Permutation_length (xml_files_of_all_files output_dir fs1)).
    apply length_map.
Qed.

Lemma process_returns_one_report_per_xml_file_witness :
  decompress_zip_files no_extraction (fst (locate_archives "in" sample_tree))
    "out" sample_tree = (Ok tt, sample_tree) /\
  decompress_gz_files_io no_extraction (snd (locate_archives "in" sample_tree))
    "out" sample_tree = (Ok tt, sample_tree) /\
  xml_files_of "out" sample_tree = ["out/a.xml"; "out/sub/d.xml"] /\
  process_dmarc_reports_from_directory sample_ET_parse no_extraction no_extraction
    "in" sample_tree "out" sample_tree
  = (Ok [report_of sample_root; report_of sample_root], sample_tree).
Proof.
  split; [reflexivity|]. split; [reflexivity|]. split; [reflexivity|].
  assert (H : Forall2 (fun f root => sample_ET_parse f = Ok root)
                (xml_files_of "out" sample_tree) [sample_root; sample_root])
    by (repeat constructor).
  exact (proj1 (process_returns_one_report_per_xml_file sample_ET_parse
                  no_extraction no_extraction "in" sample_tree "out"
                  sample_tree sample_tree sample_tree [sample_root; sample_root]
                  eq_refl eq_refl H)).
Defined.

(** X6.  One file that the XML parser rejects makes the function raise
    what the parser raised: the reports of the files parsed before it are
    dropped, the files after it are not read, and the working directory
    keeps everything that was extracted. *)
Theorem process_aborts_on_first_bad_file :
  forall (ET_parse : string -> result Element)
         (extractall gunzip_to : string -> string -> io unit)
         (directory : string) (entries : FS) (output_dir : string)
         (fs fs0 fs1 : FS)
         (parsed : list string) (bad : string) (rest : list string)
         (roots : list Element) (e : exn),
    decompress_zip_files extractall (fst (locate_archives directory entries))
      output_dir fs = (Ok tt, fs0) ->
    decompress_gz_files_io gunzip_to (snd (locate_archives directory entries))
      output_dir fs0 = (Ok tt, fs1) ->
    xml_files_of output_dir fs1 = parsed ++ bad :: rest ->
    Forall2 (fun f root => ET_parse f = Ok root) parsed roots ->
    ET_parse bad = Raise e ->
    process_dmarc_reports_from_directory ET_parse extractall gunzip_to
      directory entries output_dir fs
    = (Raise e, fs1).
Proof.
  intros ET_parse extractall gunzip_to directory entries output_dir
         fs fs0 fs1 parsed bad rest roots e Hzip Hgz Hfiles Hparsed Hbad.
  rewrite (process_after_extraction _ _ _ _ _ _ _ _ _ Hzip Hgz), Hfiles.
  now rewrite (parse_each_first_failure _ _ _ _ _ _ Hparsed Hbad).
Qed.

Lemma process_aborts_on_first_bad_file_witness :
  decompress_zip_files no_extraction (fst (locate_archives "in" sample_tree))
    "out" sample_tree = (Ok tt, sample_tree) /\
  decompress_gz_files_io no_extraction (snd (locate_archives "in" sample_tree))
    "out" sample_tree = (Ok tt, sample_tree) /\
  xml_files_of "out" sample_tree = [] ++ "out/a.xml" :: ["out/sub/d.xml"] /\
  reject_file "out/a.xml" "out/a.xml" = Raise ParseError /\
  process_dmarc_reports_from_directory (reject_file "out/a.xml")
    no_extraction no_extraction "in" sample_tree "out" sample_tree
  = (Raise ParseError, sample_tree).
Proof.
  split; [reflexivity|]. split; [reflexivity|]. split; [reflexivity|].
  split; [reflexivity|].
  exact (process_aborts_on_first_bad_file (reject_file "out/a.xml")
           no_extraction no_extraction "in" sample_tree "out"
           sample_tree sample_tree sample_tree
           [] "out/a.xml" ["out/sub/d.xml"] [] ParseError
           eq_refl eq_refl eq_refl (Forall2_nil _) eq_refl).
Defined.

(** X7.  When one of the two extraction loops raises, the function raises
    the same exception and leaves the working directory as that loop left
    it: no file is parsed, and after a failure among the [.zip] archives no
    [.gz] archive is opened. *)
Theorem process_stops_when_extraction_fails :
  forall (ET_parse : string -> result Element)
         (extractall gunzip_to : string -> string -> io unit)
         (directory : string) (entries : FS) (output_dir : string)
         (fs fs' : FS) (e : exn),
    (decompress_zip_files extractall (fst (locate_archives directory entries))
       output_dir fs = (Raise e, fs') \/
     exists fs0,
       decompress_zip_files extractall (fst (locate_archives directory entries))
         output_dir fs = (Ok tt, fs0) /\
       decompress_gz_files_io gunzip_to (snd (locate_archives directory entries))
         output_dir fs0 = (Raise e, fs')) ->
    process_dmarc_reports_from_directory ET_parse extractall gunzip_to
      directory entries output_dir fs
    = (Raise e, fs').
Proof.
  intros ET_parse extractall gunzip_to directory entries output_dir fs fs' e H.
  unfold process_dmarc_reports_from_directory.
  destruct (locate_archives directory entries) as [zip_files gz_files].
  simpl in H. unfold io_bind.
  destruct H as [Hzip|(fs0 & Hzip & Hgz)].
  - now rewrite Hzip.
  - now rewrite Hzip, Hgz.
Qed.

Lemma process_stops_when_extraction_fails_witness :
  let bad_zip : string -> string -> io unit :=
    fun _ _ fs => (Raise (OtherError "BadZipFile"), fs ++ [File "half.xml"]) in
  decompress_zip_files bad_zip (fst (locate_archives "in" sample_tree))
    "out" [] = (Raise (OtherError "BadZipFile"), [File "half.xml"]) /\
  process_dmarc_reports_from_directory sample_ET_parse bad_zip no_extraction
    "in" sample_tree "out" []
  = (Raise (OtherError "BadZipFile"), [File "half.xml"]).
Proof.
  intros bad_zip. split; [reflexivity|].
  exact (process_stops_when_extraction_fails sample_ET_parse bad_zip
           no_extraction "in" sample_tree "out" [] [File "half.xml"]
           (OtherError "BadZipFile") (or_introl eq_refl)).
Defined.

(** ** The shape and the cells of the CSV *)

Lemma make_row_length (metadata : ReportMetadata) (policy : PolicyPublished)
    (record : Row) :
  length (make_row metadata policy record) = 19.
Proof. reflexivity. Qed.

Lemma flatten_rows_lengths (reports : list Report) :
  Forall (fun row : FlatRow => length row = 19) (flatten_rows reports).
Proof.
  rewrite flatten_rows_flat_map. apply Forall_flat_map.
  apply Forall_forall. intros report _. unfold rows_of_report.
  apply Forall_map, Forall_forall. intros record _. reflexivity.
Qed.


Lemma cells_of_parsed_row (root record : Element) :
  map na_rep
    (map snd (make_row (report_metadata (report_of root))
                       (policy_published (report_of root)) (row_of record)))
  = map na_rep (map (text_at root) report_paths
                  ++ map (text_at record) record_paths).
Proof. reflexivity. Qed.

Lemma Forall2_parse_root (roots : list Element) (reports : list Report) :
  Forall2 (fun root report => parse_root root = Ok report) roots reports ->
  reports = map report_of roots.
Proof.
  induction 1 as [|root report roots reports H _ IH]; simpl; [reflexivity|].
  now rewrite (parse_root_inv _ _ H), IH.
Qed.

Lemma map_flat_map {A B C : Type} (f : B -> C) (g : A -> list B) (l : list A) :
  map f (flat_map g l) = flat_map (fun x => map f (g x)) l.
Proof. induction l as [|x l IH]; simpl; [reflexivity | now rewrite map_app, IH]. Qed.

(** X9.  From documents to CSV: for parsed documents with at least one
    [record] element among them, the CSV is the header followed, document
    after document and record after record in document order, by one line
    whose cells are the texts of the eleven report elements and of the
    eight record elements, each reached by taking the first child with the
    tag at every step; the text is written as it stands, and the cell is
    empty when the element or its text is missing. *)
Theorem csv_of_documents :
  forall (roots : list Element) (reports : list Report),
    Forall2 (fun root report => parse_root root = Ok report) roots reports ->
    flat_map (fun root => findall root "record") roots <> [] ->
    save_reports_to_csv reports
    = csv_header
        :: flat_map
             (fun root =>
                map (fun record =>
                       map na_rep (map (text_at root) report_paths
                                     ++ map (text_at record) record_paths))
                    (findall root "record"))
             roots.
Proof.
  intros roots reports Hparse Hne.
  apply Forall2_parse_root in Hparse. subst reports.
  assert (Hrows : flatten_rows (map report_of roots)
                  = flat_map (fun root =>
                                map (fun record =>
                                       make_row (report_metadata (report_of root))
                                                (policy_published (report_of root))
                                                (row_of record))
                                    (findall root "record"))
                             roots).
  { rewrite flatten_rows_flat_map. clear Hne.
    induction roots as [|root roots IH]; simpl; [reflexivity|].
    rewrite IH. f_equal. unfold rows_of_report. simpl. now rewrite map_map. }
  rewrite save_reports_to_csv_with_records.
  - f_equal. rewrite Hrows, map_flat_map.
    apply flat_map_ext. intros root. rewrite map_map.
    apply map_ext. intros record. apply cells_of_parsed_row.
  - rewrite Hrows. intros Hnil. apply Hne. clear Hne Hrows.
    induction roots as [|root roots IH]; [reflexivity|].
    simpl in *. apply app_eq_nil in Hnil. destruct Hnil as [H1 H2].
    apply map_eq_nil in H1. rewrite H1. simpl. now apply IH.
Qed.

Lemma csv_of_documents_witness :
  Forall2 (fun root report => parse_root root = Ok report)
    [Elem "feedback" None [sample_record]]
    [report_of (Elem "feedback" None [sample_record])] /\
  flat_map (fun root => findall root "record")
    [Elem "feedback" None [sample_record]] <> [] /\
  save_reports_to_csv [report_of (Elem "feedback" None [sample_record])]
  = [ csv_header;
      [ EmptyString; EmptyString; EmptyString; EmptyString; EmptyString;
        EmptyString; EmptyString; EmptyString; EmptyString; EmptyString;
        EmptyString; "192.0.2.1"; "2"; "none"; "pass"; "fail";
        "example.com"; "example.com"; "example.com" ] ].
Proof.
  assert (H : Forall2 (fun root report => parse_root root = Ok report)
                [Elem "feedback" None [sample_record]]
                [report_of (Elem "feedback" None [sample_record])])
    by (repeat constructor).
  assert (Hne : flat_map (fun root => findall root "record")
                  [Elem "feedback" None [sample_record]] <> [])
    by discriminate.
  split; [exact H|]. split; [exact Hne|].
  rewrite (csv_of_documents _ _ H Hne). reflexivity.
Defined.

(** ** More about the aggregation *)

Lemma sum_counts_perm (l l' : list Z) :
  Permutation l l' -> sum_counts l = sum_counts l'.
Proof.
  unfold sum_counts.
  induction 1 as [|x l l' _ IH|x y l|l l' l'' _ IH1 _ IH2]; simpl; lia.
Qed.

Lemma total_count_perm (k : string) (df df' : list (option string * Z)) :
  Permutation df df' -> total_count k df = total_count k df'.
Proof.
  intros H. apply sum_counts_perm, Permutation_map, Permutation_filter, H.
Qed.

Lemma existsb_perm {A : Type} (f : A -> bool) (l l' : list A) :
  Permutation l l' -> existsb f l = existsb f l'.
Proof.
  intros H. apply eq_true_iff_eq. rewrite !existsb_exists. split.
  - intros (x & Hin & Hx). exists x. split; [|exact Hx].
    now apply (Permutation_in _ H).
  - intros (x & Hin & Hx). exists x. split; [|exact Hx].
    now apply (Permutation_in _ (Permutation_sym H)).
Qed.

Lemma forallb_perm {A : Type} (f : A -> bool) (l l' : list A) :
  Permutation l l' -> forallb f l = true -> forallb f l' = true.
Proof.
  intros H. rewrite !forallb_forall. intros Hl x Hin.
  apply Hl. now apply (Permutation_in _ (Permutation_sym H)).
Qed.

Lemma group_sum_in_sorted (groups : list (string * Z)) (k : string) (v : Z) :
  StronglySorted key_lt groups -> In (k, v) groups -> group_sum k groups = Some v.
Proof.
  induction 1 as [|[k' v'] groups Hs IH Hall]; simpl; [tauto|].
  intros [Heq|Hin].
  - injection Heq as -> ->. now rewrite String.eqb_refl.
  - rewrite Forall_forall in Hall. specialize (Hall _ Hin).
    unfold key_lt in Hall; simpl in Hall. apply compare_lt_neq in Hall.
    destruct (String.eqb_spec k' k); [congruence | now apply IH].
Qed.

Lemma sorted_groups_ext (l1 : list (string * Z)) :
  forall l2,
    StronglySorted key_lt l1 -> StronglySorted key_lt l2 ->
    (forall k, group_sum k l1 = group_sum k l2) ->
    l1 = l2.
Proof.
  induction l1 as [|[k1 v1] l1 IH]; intros [|[k2 v2] l2] H1 H2 Hext.
  - reflexivity.
  - specialize (Hext k2). simpl in Hext. rewrite String.eqb_refl in Hext. discriminate.
  - specialize (Hext k1). simpl in Hext. rewrite String.eqb_refl in Hext. discriminate.
  - inversion H1 as [|? ? Hs1 Hall1]; inversion H2 as [|? ? Hs2 Hall2]; subst.
    assert (Hab1 : Forall (fun y => String.compare k1 (fst y) = Lt) l1) by exact Hall1.
    assert (Hab2 : Forall (fun y => String.compare k2 (fst y) = Lt) l2) by exact Hall2.
    destruct (String.compare k1 k2) eqn:E.
    + apply String.compare_eq_iff in E. subst k2.
      pose proof (Hext k1) as Hk. simpl in Hk. rewrite String.eqb_refl in Hk.
      injection Hk as <-. f_equal. apply IH; [exact Hs1 | exact Hs2 |].
      intros k. destruct (String.eqb_spec k1 k) as [<-|Hne].
      * now rewrite !group_sum_above.
      * specialize (Hext k). simpl in Hext.
        destruct (String.eqb_spec k1 k); [congruence | exact Hext].
    + exfalso. specialize (Hext k1). simpl in Hext.
      rewrite String.eqb_refl in Hext.
      pose proof (compare_lt_neq _ _ E) as Hne.
      destruct (String.eqb_spec k2 k1); [congruence|].
      rewrite group_sum_above in Hext; [discriminate|].
      eapply Forall_impl; [|exact Hab2]. intros y Hy.
      eapply compare_lt_trans; eauto.
    + exfalso. apply compare_gt_lt in E. specialize (Hext k2). simpl in Hext.
      rewrite String.eqb_refl in Hext.
      pose proof (compare_lt_neq _ _ E) as Hne.
      destruct (String.eqb_spec k1 k2); [congruence|].
      rewrite group_sum_above in Hext; [discriminate|].
      eapply Forall_impl; [|exact Hab1]. intros y Hy.
      eapply compare_lt_trans; eauto.
Qed.

Lemma groupby_sum_perm (df df' : list (option string * Z)) :
  int64_column df = true ->
  Permutation df df' -> groupby_sum df = groupby_sum df'.
Proof.
  intros Hdf H. apply sorted_groups_ext; try apply groupby_sum_sorted.
  intros k. rewrite !groupby_sum_total;
    [| exact (forallb_perm _ _ _ H Hdf) | exact Hdf].
  now rewrite (existsb_perm _ _ _ H), (total_count_perm k _ _ H).
Qed.

(** X10.  For a [count] column of integers the chart does not depend on
    the order of the rows of the CSV: frames that hold the same rows in any
    order give the same addresses with the same sums in the same order. *)
Theorem ip_counts_ignores_row_order :
  forall (sort_values : list (string * Z) -> list (string * Z))
         (df df' : list (option string * Z)),
    int64_column df = true ->
    Permutation df df' ->
    ip_counts sort_values df = ip_counts sort_values df'.
Proof.
  intros sort_values df df' Hdf H. unfold ip_counts.
  now rewrite (groupby_sum_perm _ _ Hdf H).
Qed.

Lemma ip_counts_ignores_row_order_witness :
  int64_column example_rows = true /\
  Permutation example_rows (rev example_rows) /\
  ip_counts sort_desc example_rows = ip_counts sort_desc (rev example_rows).
Proof.
  split; [reflexivity|]. split; [apply Permutation_rev|].
  exact (ip_counts_ignores_row_order sort_desc example_rows (rev example_rows)
           eq_refl (Permutation_rev example_rows)).
Defined.

Lemma ip_counts_incl (sort_values : list (string * Z) -> list (string * Z))
    (df : list (option string * Z)) (x : string * Z) :
  descending_sort sort_values ->
  In x (ip_counts sort_values df) -> In x (groupby_sum df).
Proof.
  intros Hsort Hin.
  destruct (nlargest_spec sort_values 20 (groupby_sum df) Hsort
              (groupby_sum_sorted df)) as (_ & _ & rest & Hperm & _).
  apply (Permutation_in _ (Permutation_sym Hperm)).
  apply in_or_app. now left.
Qed.

Lemma key_lt_sorted_NoDup (groups : list (string * Z)) :
  StronglySorted key_lt groups -> NoDup (map fst groups).
Proof.
  induction 1 as [|x groups Hs IH Hall]; simpl; constructor; [|exact IH].
  intros Hin. apply in_map_iff in Hin. destruct Hin as (y & Hfst & Hy).
  rewrite Forall_forall in Hall. specialize (Hall _ Hy).
  unfold key_lt in Hall. apply compare_lt_neq in Hall. congruence.
Qed.

(** X11.  For a [count] column of integers, every bar of the chart is an
    address that occurs in the rows, with the sum of the counts of all the
    rows of that address as 64-bit addition gives it, which is the sum
    itself whenever that fits in 64 bits; no address has two bars, and
    there are at most twenty. *)
Theorem chart_bars_are_totals :
  forall (sort_values : list (string * Z) -> list (string * Z))
         (df : list (option string * Z)),
    descending_sort sort_values ->
    int64_column df = true ->
    Forall (fun bar =>
              existsb (has_key (fst bar)) df = true /\
              snd bar = int64_wrap (total_count (fst bar) df) /\
              (in_int64 (total_count (fst bar) df) = true ->
               snd bar = total_count (fst bar) df))
           (ip_counts sort_values df) /\
    NoDup (map fst (ip_counts sort_values df)) /\
    length (ip_counts sort_values df) <= 20.
Proof.
  intros sort_values df Hsort Hdf.
  destruct (nlargest_spec sort_values 20 (groupby_sum df) Hsort
              (groupby_sum_sorted df)) as (Hlen & _ & rest & Hperm & _).
  split; [|split].
  - apply Forall_forall. intros [k v] Hin. simpl.
    apply (ip_counts_incl _ _ _ Hsort) in Hin.
    apply (group_sum_in_sorted _ _ _ (groupby_sum_sorted df)) in Hin.
    rewrite (groupby_sum_total _ _ Hdf) in Hin.
    destruct (existsb (has_key k) df); [|discriminate].
    injection Hin as <-. split; [reflexivity|]. split; [reflexivity|].
    apply int64_wrap_small.
  - pose proof (key_lt_sorted_NoDup _ (groupby_sum_sorted df)) as Hnd.
    apply (Permutation_NoDup (Permutation_map fst Hperm)) in Hnd.
    rewrite map_app in Hnd. now apply NoDup_app_remove_r in Hnd.
  - fold (ip_counts sort_values df) in Hlen. lia.
Qed.

Lemma chart_bars_are_totals_witness :
  descending_sort sort_desc /\
  int64_column example_rows = true /\
  Forall (fun bar => existsb (has_key (fst bar)) example_rows = true)
    (ip_counts sort_desc example_rows).
Proof.
  split; [exact sort_desc_descending|]. split; [reflexivity|].
  eapply Forall_impl;
    [| exact (proj1 (chart_bars_are_totals sort_desc example_rows
                       sort_desc_descending eq_refl))].
  intros bar H. exact (proj1 H).
Defined.

Lemma sum_counts_nonneg (l : list Z) :
  Forall (fun z => 0 <= z)%Z l -> (0 <= sum_counts l)%Z.
Proof. unfold sum_counts. induction 1; simpl; lia. Qed.

Lemma add_to_group_exact (k : string) (v : Z) (groups : list (string * Z)) :
  Forall (fun z => 0 <= z)%Z (map snd groups) ->
  (0 <= v)%Z ->
  (sum_counts (map snd groups) + v < 2 ^ 63)%Z ->
  sum_counts (map snd (add_to_group k v groups))
  = (sum_counts (map snd groups) + v)%Z /\
  Forall (fun z => 0 <= z)%Z (map snd (add_to_group k v groups)).
Proof.
  intros Hg Hv. induction groups as [|[k' v'] groups IH]; simpl in *; intros Hb.
  - unfold sum_counts; simpl. split; [lia | now repeat constructor].
  - inversion Hg as [|? ? Hv' Hg']; subst.
    pose proof (sum_counts_nonneg _ Hg') as Hs.
    unfold sum_counts in *. simpl in *.
    destruct (String.compare k k'); simpl.
    + rewrite int64_wrap_small by (apply in_int64_iff; lia).
      split; [lia | constructor; [lia | exact Hg']].
    + split; [lia | constructor; [exact Hv | exact Hg]].
    + destruct (IH Hg' ltac:(lia)) as [Hsum Hall].
      split; [lia | constructor; [exact Hv' | exact Hall]].
Qed.

Lemma sum_counts_cons (z : Z) (l : list Z) :
  sum_counts (z :: l) = (z + sum_counts l)%Z.
Proof. reflexivity. Qed.

Lemma group_fold_exact (df : list (option string * Z)) :
  forall groups,
    Forall (fun z => 0 <= z)%Z (map snd groups) ->
    Forall (fun z => 0 <= z)%Z (map snd (filter keyed df)) ->
    (sum_counts (map snd groups) + sum_counts (map snd (filter keyed df)) < 2 ^ 63)%Z ->
    sum_counts (map snd (fold_left group_step df groups))
    = (sum_counts (map snd groups) + sum_counts (map snd (filter keyed df)))%Z.
Proof.
  induction df as [|[[k|] c] df IH]; intros groups Hg Hdf Hb.
  - change (filter keyed []) with (@nil (option string * Z)).
    change (fold_left group_step [] groups) with groups.
    change (sum_counts (map snd (@nil (option string * Z)))) with 0%Z. lia.
  - change (filter keyed ((Some k, c) :: df))
      with ((Some k, c) :: filter keyed df) in *.
    change (map snd ((Some k, c) :: filter keyed df))
      with (c :: map snd (filter keyed df)) in *.
    change (fold_left group_step ((Some k, c) :: df) groups)
      with (fold_left group_step df (add_to_group k c groups)).
    rewrite sum_counts_cons in *.
    inversion Hdf as [|? ? Hc Hdf']; subst.
    pose proof (sum_counts_nonneg _ Hdf') as Hs.
    destruct (add_to_group_exact k c groups Hg Hc ltac:(lia)) as [Hsum Hall].
    rewrite IH; [rewrite Hsum; lia | exact Hall | exact Hdf' | rewrite Hsum; lia].
  - change (filter keyed ((None, c) :: df)) with (filter keyed df) in *.
    change (fold_left group_step ((None, c) :: df) groups)
      with (fold_left group_step df groups).
    now apply IH.
Qed.

(** X12.  For a [count] column of integers, grouping loses and invents
    nothing when the counts of the rows that have a [source_ip] are not
    negative and add up to less than 2^63: the sums of the groups add up
    to the sum of those counts, the rows without a [source_ip] being left
    out; with no more than twenty addresses the bars of the chart add up
    to it too. *)
Theorem group_sums_add_up :
  forall (sort_values : list (string * Z) -> list (string * Z))
         (df : list (option string * Z)),
    descending_sort sort_values ->
    int64_column df = true ->
    Forall (fun z => 0 <= z)%Z (map snd (filter keyed df)) ->
    (sum_counts (map snd (filter keyed df)) < 2 ^ 63)%Z ->
    sum_counts (map snd (groupby_sum df))
    = sum_counts (map snd (filter keyed df)) /\
    (length (groupby_sum df) <= 20 ->
     sum_counts (map snd (ip_counts sort_values df))
     = sum_counts (map snd (filter keyed df))).
Proof.
  intros sort_values df Hsort _ Hnn Hb.
  assert (Hsum : sum_counts (map snd (groupby_sum df))
                 = sum_counts (map snd (filter keyed df))).
  { unfold groupby_sum. rewrite group_fold_exact.
    - unfold sum_counts at 1. simpl. lia.
    - constructor.
    - exact Hnn.
    - unfold sum_counts at 1. simpl. lia. }
  split; [exact Hsum|].
  intros Hlen. rewrite <- Hsum.
  destruct (nlargest_spec sort_values 20 (groupby_sum df) Hsort
              (groupby_sum_sorted df)) as (_ & _ & rest & Hperm & _ & Hrest).
  rewrite (Hrest Hlen), app_nil_r in Hperm.
  symmetry. apply sum_counts_perm, Permutation_map, Hperm.
Qed.

Lemma group_sums_add_up_witness :
  descending_sort sort_desc /\
  int64_column example_rows = true /\
  Forall (fun z => 0 <= z)%Z (map snd (filter keyed example_rows)) /\
  (sum_counts (map snd (filter keyed example_rows)) < 2 ^ 63)%Z /\
  sum_counts (map snd (groupby_sum example_rows)) = 18%Z.
Proof.
  assert (Hnn : Forall (fun z => 0 <= z)%Z (map snd (filter keyed example_rows)))
    by (repeat constructor; discriminate).
  assert (Hb : (sum_counts (map snd (filter keyed example_rows)) < 2 ^ 63)%Z)
    by reflexivity.
  split; [exact sort_desc_descending|]. split; [reflexivity|].
  split; [exact Hnn|]. split; [exact Hb|].
  rewrite (proj1 (group_sums_add_up sort_desc example_rows
                    sort_desc_descending eq_refl Hnn Hb)).
  reflexivity.
Defined.

(** ** More about the cleanup *)

Lemma strip_xml_node_fixed (n : node) :
  forall root,
    Forall (fun p => endswith (path_name p) ".xml" = false) (files_of_node root n) ->
    strip_xml_node n = [n].
Proof.
  induction n as [f|d es IH] using node_ind_nested; intros root Hno.
  - simpl in *. inversion Hno as [|? ? Hf _]; subst.
    unfold path_name in Hf. rewrite last_last in Hf. now rewrite Hf.
  - simpl in *. f_equal. f_equal.
    induction IH as [|e es He _ IHes]; simpl in *; [reflexivity|].
    apply Forall_app in Hno. destruct Hno as [Hno1 Hno2].
    rewrite (He _ Hno1), (IHes Hno2). reflexivity.
Qed.

Lemma strip_xml_fixed (fs : FS) :
  Forall (fun p => endswith (path_name p) ".xml" = false) (all_files fs) ->
  strip_xml fs = fs.
Proof.
  unfold strip_xml, all_files. induction fs as [|n fs IH]; simpl; intros Hno.
  - reflexivity.
  - apply Forall_app in Hno. destruct Hno as [Hno1 Hno2].
    rewrite (strip_xml_node_fixed _ _ Hno1), (IH Hno2). reflexivity.
Qed.

Lemma strip_xml_no_xml (fs : FS) :
  Forall (fun p => endswith (path_name p) ".xml" = false) (all_files (strip_xml fs)).
Proof.
  rewrite all_files_strip_xml. apply Forall_forall. intros p Hin.
  apply filter_In in Hin. destruct Hin as [_ Hp].
  now apply negb_true_iff in Hp.
Qed.

Lemma strip_xml_idempotent (fs : FS) : strip_xml (strip_xml fs) = strip_xml fs.
Proof. apply strip_xml_fixed, strip_xml_no_xml. Qed.

Lemma strip_xml_NoDup (es : list node) :
  NoDup (map node_name es) -> NoDup (map node_name (strip_xml es)).
Proof.
  induction es as [|n es IH]; simpl; intros Hnd.
  - constructor.
  - inversion Hnd as [|? ? Hn Hes]; subst.
    change (strip_xml (n :: es)) with (strip_xml_node n ++ strip_xml es).
    assert (Hfresh : ~ In (node_name n) (map node_name (strip_xml es)))
      by (intros Hin; apply Hn; now apply strip_xml_names).
    destruct n as [f|d sub]; simpl in *.
    + destruct (endswith f ".xml"); simpl; [now apply IH|].
      constructor; [exact Hfresh | now apply IH].
    + constructor; [exact Hfresh | now apply IH].
Qed.

Lemma strip_xml_unique_node (n : node) :
  unique_names_node n = true ->
  forallb unique_names_node (strip_xml_node n) = true.
Proof.
  induction n as [f|d es IH] using node_ind_nested; intros Hu.
  - simpl. destruct (endswith f ".xml"); reflexivity.
  - simpl in Hu. apply andb_true_iff in Hu. destruct Hu as [Hnd Hall].
    simpl. rewrite andb_true_r. apply andb_true_iff. split.
    + apply distinct_NoDup. apply distinct_NoDup in Hnd.
      now apply (strip_xml_NoDup es).
    + clear Hnd. induction IH as [|e es He _ IHes]; simpl in *; [reflexivity|].
      apply andb_true_iff in Hall. destruct Hall as [Hue Hues].
      rewrite forallb_app, (He Hue), (IHes Hues). reflexivity.
Qed.

Lemma strip_xml_unique (fs : FS) :
  unique_names fs = true -> unique_names (strip_xml fs) = true.
Proof.
  intros Hu. pose proof (strip_xml_unique_node (Dir EmptyString fs) Hu) as H.
  simpl in H. rewrite andb_true_r in H. exact H.
Qed.

(** X13.  Running the cleanup a second time changes nothing and raises
    nothing: two cleanups in a row are one. *)
Theorem cleanup_twice_is_cleanup_once :
  forall fs : FS,
    unique_names fs = true ->
    (_ <- cleanup_extracted_files ;; cleanup_extracted_files)%io fs
    = cleanup_extracted_files fs.
Proof.
  intros fs Hu. unfold io_bind.
  rewrite (cleanup_extracted_files_strips fs Hu).
  rewrite (cleanup_extracted_files_strips _ (strip_xml_unique fs Hu)).
  now rewrite strip_xml_idempotent.
Qed.

Lemma cleanup_twice_is_cleanup_once_witness :
  unique_names sample_tree = true /\
  (_ <- cleanup_extracted_files ;; cleanup_extracted_files)%io sample_tree
  = (Ok tt,
     [ File "b.zip"; File "notes.txt";
       Dir "sub" [ File "c.xml.gz"; Dir "deep" [ File "e.zip" ] ] ]).
Proof.
  split; [reflexivity|].
  rewrite (cleanup_twice_is_cleanup_once sample_tree eq_refl). reflexivity.
Defined.

(** X14.  A working directory that holds no file whose name ends in
    [.xml] comes out of the cleanup as it went in: archives, the CSV and
    every other file stay. *)
Theorem cleanup_without_xml_changes_nothing :
  forall fs : FS,
    unique_names fs = true ->
    Forall (fun p => endswith (path_name p) ".xml" = false) (all_files fs) ->
    cleanup_extracted_files fs = (Ok tt, fs).
Proof.
  intros fs Hu Hno. rewrite (cleanup_extracted_files_strips fs Hu).
  now rewrite (strip_xml_fixed fs Hno).
Qed.

Lemma cleanup_without_xml_changes_nothing_witness :
  let fs := [ File "report.csv"; File "a.zip"; Dir "xml" [ File "b.xml.gz" ] ] in
  unique_names fs = true /\
  Forall (fun p => endswith (path_name p) ".xml" = false) (all_files fs) /\
  cleanup_extracted_files fs = (Ok tt, fs).
Proof.
  intros fs.
  assert (Hno : Forall (fun p => endswith (path_name p) ".xml" = false) (all_files fs))
    by (repeat constructor).
  split; [reflexivity|]. split; [exact Hno|].
  exact (cleanup_without_xml_changes_nothing fs eq_refl Hno).
Defined.

(** ** Where a decompressed file goes *)

Lemma string_app_assoc (a b c : string) :
  ((a ++ b) ++ c)%string = (a ++ (b ++ c))%string.
Proof. induction a as [|x a IH]; simpl; [reflexivity | now rewrite IH]. Qed.

Lemma endswith_inv (s suffix : string) :
  endswith s suffix = true -> exists before, s = (before ++ suffix)%string.
Proof.
  induction s as [|c s IH]; cbn [endswith]; rewrite orb_true_iff.
  - intros [H|H]; [|discriminate]. apply String.eqb_eq in H. subst.
    now exists EmptyString.
  - intros [H|H].
    + apply String.eqb_eq in H. subst. now exists EmptyString.
    + destruct (IH H) as (before & ->). now exists (String c before).
Qed.

Lemma prefix_empty (s : string) : String.prefix EmptyString s = true.
Proof. destruct s; reflexivity. Qed.

Lemma occurs_slash_cons (c : ascii) (s : string) :
  occurs "/" (String c s) = false ->
  Ascii.eqb c "/" = false /\ occurs "/" s = false.
Proof.
  cbn [occurs]. rewrite prefix_cons, prefix_empty, andb_true_r, orb_false_iff.
  now rewrite Ascii.eqb_sym.
Qed.

Lemma basename_scan_no_slash (p : string) :
  forall candidate, occurs "/" p = false -> basename_scan candidate p = candidate.
Proof.
  induction p as [|c p IH]; intros candidate Hp; [reflexivity|].
  apply occurs_slash_cons in Hp. destruct Hp as [Hc Hp].
  cbn [basename_scan]. rewrite Hc. now apply IH.
Qed.

Lemma basename_scan_after_slash (a b : string) :
  forall candidate,
    basename_scan candidate (a ++ String "/" b) = basename_scan b b.
Proof.
  induction a as [|c a IH]; intros candidate.
  - reflexivity.
  - change ((String c a ++ String "/" b)%string) with (String c (a ++ String "/" b)).
    cbn [basename_scan]. destruct (Ascii.eqb c "/"); apply IH.
Qed.

Lemma basename_join (root file : string) :
  occurs "/" file = false ->
  os_path_basename (os_path_join root file) = file.
Proof.
  intros Hfile. unfold os_path_join, startswith.
  assert (Hpre : String.prefix "/" file = false).
  { destruct file as [|c f]; [reflexivity|].
    cbn [occurs] in Hfile. now apply orb_false_iff in Hfile. }
  rewrite Hpre. unfold os_path_basename.
  destruct (String.eqb_spec root EmptyString) as [->|_]; simpl orb.
  - simpl. now apply basename_scan_no_slash.
  - destruct (endswith root "/") eqn:E.
    + apply endswith_inv in E. destruct E as (before & ->).
      rewrite string_app_assoc. simpl.
      rewrite basename_scan_after_slash. now apply basename_scan_no_slash.
    + change ((root ++ "/" ++ file)%string) with ((root ++ String "/" file)%string).
      rewrite basename_scan_after_slash. now apply basename_scan_no_slash.
Qed.

Lemma occurs_slash_append_gz (name : string) :
  occurs "/" name = false -> occurs "/" (name ++ ".gz") = false.
Proof.
  induction name as [|c s IH]; intros H; [reflexivity|].
  apply occurs_slash_cons in H. destruct H as [Hc Hs].
  change ((String c s ++ ".gz")%string) with (String c (s ++ ".gz")).
  cbn [occurs]. rewrite prefix_cons, prefix_empty, andb_true_r.
  rewrite Ascii.eqb_sym, Hc. simpl. now apply IH.
Qed.

(** X15.  An archive that the walk finds in whatever directory, under a
    name that holds [.gz] only as its suffix, is written directly in the
    output directory under that name without the suffix: the directory it
    was found in plays no part. *)
Theorem gz_file_lands_in_output_dir :
  forall output_dir root name : string,
    occurs "/" name = false ->
    occurs ".gz" name = false ->
    gz_output_path output_dir (os_path_join root (name ++ ".gz"))
    = os_path_join output_dir name.
Proof.
  intros output_dir root name Hslash Hgz. unfold gz_output_path.
  rewrite basename_join by now apply occurs_slash_append_gz.
  unfold str_replace. now rewrite replace_gz_suffix_only.
Qed.

Lemma gz_file_lands_in_output_dir_witness :
  occurs "/" "google.com!example.com!1!2.xml" = false /\
  occurs ".gz" "google.com!example.com!1!2.xml" = false /\
  gz_output_path "out" "in/2024/may/google.com!example.com!1!2.xml.gz"
  = "out/google.com!example.com!1!2.xml".
Proof.
  split; [reflexivity|]. split; [reflexivity|].
  exact (gz_file_lands_in_output_dir "out" "in/2024/may"
           "google.com!example.com!1!2.xml" eq_refl eq_refl).
Defined.

(** ** What the parser does not look at *)

Lemma find_first_skip (before after : list Element) (extra : Element) (name : string) :
  tag extra <> name ->
  find_first (before ++ extra :: after) name = find_first (before ++ after) name.
Proof.
  intros Hne. induction before as [|c before IH]; simpl.
  - now rewrite (proj2 (String.eqb_neq _ _) Hne).
  - destruct (String.eqb (tag c) name); [reflexivity | exact IH].
Qed.

Lemma filter_skip {A : Type} (f : A -> bool) (before after : list A) (extra : A) :
  f extra = false -> filter f (before ++ extra :: after) = filter f (before ++ after).
Proof. intros H. rewrite !filter_app. simpl. now rewrite H. Qed.

(** X16.  The parser never reads the tag or the text of the root element,
    and a child of the root that is neither [report_metadata] nor
    [policy_published] nor [record] changes nothing, wherever it stands
    among the children. *)
Theorem parse_ignores_root_tag_and_other_children :
  forall (root_tag root_tag' : string) (root_text root_text' : option string)
         (before after : list Element) (extra : Element),
    tag extra <> "report_metadata" ->
    tag extra <> "policy_published" ->
    tag extra <> "record" ->
    parse_root (Elem root_tag root_text (before ++ extra :: after))
    = parse_root (Elem root_tag' root_text' (before ++ after)).
Proof.
  intros root_tag root_tag' root_text root_text' before after extra Hm Hp Hr.
  rewrite !parse_root_total. f_equal.
  unfold report_of, findall, text_at, descend, find. cbn [children].
  rewrite !(find_first_skip before after extra _ Hm).
  rewrite !(find_first_skip before after extra _ Hp).
  rewrite (filter_skip _ before after extra (proj2 (String.eqb_neq _ _) Hr)).
  reflexivity.
Qed.

Lemma parse_ignores_root_tag_and_other_children_witness :
  tag (leaf "version" "1.0") <> "report_metadata" /\
  tag (leaf "version" "1.0") <> "policy_published" /\
  tag (leaf "version" "1.0") <> "record" /\
  parse_root (Elem "feedback" None ([] ++ leaf "version" "1.0" :: [sample_record]))
  = parse_root (Elem "html" (Some "x") ([] ++ [sample_record])).
Proof.
  assert (Hm : tag (leaf "version" "1.0") <> "report_metadata") by discriminate.
  assert (Hp : tag (leaf "version" "1.0") <> "policy_published") by discriminate.
  assert (Hr : tag (leaf "version" "1.0") <> "record") by discriminate.
  split; [exact Hm|]. split; [exact Hp|]. split; [exact Hr|].
  exact (parse_ignores_root_tag_and_other_children "feedback" "html" None
           (Some "x") [] [sample_record] (leaf "version" "1.0") Hm Hp Hr).
Defined.

(** ** Batches *)

(** X17.  Flattening two batches of reports one after the other gives the
    rows of the first followed by the rows of the second, and so do the
    lines of the CSV after the header. *)
Theorem flatten_rows_of_batches :
  forall reports1 reports2 : list Report,
    flatten_rows (reports1 ++ reports2)
    = flatten_rows reports1 ++ flatten_rows reports2 /\
    tl (save_reports_to_csv (reports1 ++ reports2))
    = tl (save_reports_to_csv reports1) ++ tl (save_reports_to_csv reports2).
Proof.
  intros reports1 reports2.
  assert (H : flatten_rows (reports1 ++ reports2)
              = flatten_rows reports1 ++ flatten_rows reports2)
    by (rewrite !flatten_rows_flat_map; apply flat_map_app).
  split; [exact H|].
  now rewrite !csv_lines_follow_rows, H, map_app.
Qed.

(** ** The script with its first step spelled out *)

(** X18.  When the XML parser rejects one of the extracted files, the
    script ends with the exception of the parser, whatever the CSV and
    chart steps would have done, for they are not reached; and the cleanup
    has still removed every [.xml] file of the working directory, those
    that parsed well included. *)
Theorem script_after_a_bad_file :
  forall (ET_parse : string -> result Element)
         (extractall gunzip_to : string -> string -> io unit)
         (save_reports_to_csv_file : list Report -> io unit)
         (read_csv_and_display_chart : io unit)
         (directory : string) (entries : FS) (output_dir : string)
         (fs fs0 fs1 : FS)
         (parsed : list string) (bad : string) (rest : list string)
         (roots : list Element) (e : exn),
    decompress_zip_files extractall (fst (locate_archives directory entries))
      output_dir fs = (Ok tt, fs0) ->
    decompress_gz_files_io gunzip_to (snd (locate_archives directory entries))
      output_dir fs0 = (Ok tt, fs1) ->
    xml_files_of output_dir fs1 = parsed ++ bad :: rest ->
    Forall2 (fun f root => ET_parse f = Ok root) parsed roots ->
    ET_parse bad = Raise e ->
    unique_names fs1 = true ->
    script
      (process_dmarc_reports_from_directory ET_parse extractall gunzip_to
         directory entries output_dir)
      save_reports_to_csv_file read_csv_and_display_chart fs
    = (Raise e, strip_xml fs1).
Proof.
  intros ET_parse extractall gunzip_to save chart directory entries output_dir
         fs fs0 fs1 parsed bad rest roots e Hzip Hgz Hfiles Hparsed Hbad Hu.
  unfold script, try_finally, try_block, io_bind.
  rewrite (process_after_extraction _ _ _ _ _ _ _ _ _ Hzip Hgz), Hfiles.
  rewrite (parse_each_first_failure _ _ _ _ _ _ Hparsed Hbad).
  now rewrite (cleanup_extracted_files_strips fs1 Hu).
Qed.

Lemma script_after_a_bad_file_witness :
  decompress_zip_files no_extraction (fst (locate_archives "in" sample_tree))
    "out" sample_tree = (Ok tt, sample_tree) /\
  decompress_gz_files_io no_extraction (snd (locate_archives "in" sample_tree))
    "out" sample_tree = (Ok tt, sample_tree) /\
  xml_files_of "out" sample_tree = ["out/a.xml"] ++ "out/sub/d.xml" :: [] /\
  reject_file "out/sub/d.xml" "out/sub/d.xml" = Raise ParseError /\
  unique_names sample_tree = true /\
  script
    (process_dmarc_reports_from_directory (reject_file "out/sub/d.xml")
       no_extraction no_extraction "in" sample_tree "out")
    (fun _ => io_ret tt) (io_ret tt) sample_tree
  = (Raise ParseError,
     [ File "b.zip"; File "notes.txt";
       Dir "sub" [ File "c.xml.gz"; Dir "deep" [ File "e.zip" ] ] ]).
Proof.
  split; [reflexivity|]. split; [reflexivity|]. split; [reflexivity|].
  split; [reflexivity|]. split; [reflexivity|].
  assert (H : Forall2 (fun f root => reject_file "out/sub/d.xml" f = Ok root)
                ["out/a.xml"] [sample_root]) by (repeat constructor).
  exact (script_after_a_bad_file (reject_file "out/sub/d.xml")
           no_extraction no_extraction (fun _ => io_ret tt) (io_ret tt)
           "in" sample_tree "out" sample_tree sample_tree sample_tree
           ["out/a.xml"] "out/sub/d.xml" [] [sample_root] ParseError
           eq_refl eq_refl eq_refl H eq_refl eq_refl).
Defined.

(** X19.  Archives of the same name found in different directories get
    the same output path: the later one in the list overwrites what the
    earlier one wrote. *)
Theorem gz_same_name_same_output :
  forall output_dir root1 root2 name : string,
    occurs "/" name = false ->
    gz_output_path output_dir (os_path_join root1 name)
    = gz_output_path output_dir (os_path_join root2 name).
Proof.
  intros output_dir root1 root2 name Hname. unfold gz_output_path.
  now rewrite !basename_join.
Qed.

Lemma gz_same_name_same_output_witness :
  occurs "/" "r.xml.gz" = false /\
  gz_output_path "out" "in/monday/r.xml.gz" = gz_output_path "out" "in/tuesday/r.xml.gz".
Proof.
  split; [reflexivity|].
  exact (gz_same_name_same_output "out" "in/monday" "in/tuesday" "r.xml.gz" eq_refl).
Defined.
